(** * Storm-Event-Tracker: a ring DHT with a coordinator

    A shallow embedding of [manager.py] (the coordinator: registry, ring
    builder, key assignment) and [peer.py] (the node: local store and lookup
    forwarding), and the properties of the membership, ring and lookup
    protocol that hold of that code.

    Conventions of the embedding.
    - A method of [Manager] or [Peer] is a computation in the monad [M]: it
      threads the object's fields, appends to a trace of observable effects
      ([print] lines and [sendto] calls on the UDP socket), and ends in one of
      three ways: it returns, it raises, or it blocks for ever on
      [self.lock] ([threading.Lock] is not reentrant).
    - A datagram's payload is the message dictionary itself; [json.dumps]
      followed by [json.loads] is the identity on the dictionaries used here.
    - Python's builtin [hash] and [str] are parameters of the development. *)

From Stdlib Require Import ZArith Lia.
From stdpp Require Import base option list sorting gmap strings.

(** ** Wire messages, effects and the method monad *)

(** An [(ip, port)] pair, as [recvfrom] and [sendto] use them. *)
Abbreviation endpoint := (string * Z)%type (only parsing).

(** A row of [csv.DictReader]: column names with their values, in order. *)
Abbreviation event := (list (string * string)) (only parsing).

(** The dictionaries with a ["command"] field that travel in datagrams. *)
Inductive message : Type :=
  | Register (peer_port : Z)
  | SetId (peer_id : Z)
  | Store (event_id : string) (event_data : event)
  | StoreAck (peer_id : option Z) (event_id : string)
  | FindEvent (event_id : string)
  | FoundEvent (event_id : string) (event_data : event)
  | Leave (peer_id : Z)
  | SetNextPeer (next_peer : endpoint)
  | Teardown
  | Other (command : string).

Inductive exn : Type :=
  | TypeError
  | KeyError
  | IndexError.

(** One constructor per [print] statement of the two files. *)
Inductive log : Type :=
  (* manager.py *)
  | LogRegistered (peer_id : Z) (address : string) (port : Z)
  | LogStoreAck (peer_id : option Z) (event_id : string)
  | LogUnknownCommand (m : message)
  | LogRemoved (peer_id : Z)
  | LogRemoveUnknown (peer_id : Z)
  | LogNoPeersInRing
  | LogSetNext (peer_id : Z) (next_peer : endpoint)
  | LogSetNextError (peer_id : Z) (e : exn)
  | LogNoPeersRegistered
  | LogDistributing
  | LogStoreError (peer_id : Z) (e : exn)
  | LogDistributionComplete
  | LogRunLoopError (e : exn)
  | LogTeardownError (peer_id : Z) (e : exn)
  | LogShuttingDown
  | LogUnknownConsoleCommand
  | LogConsoleError (e : exn)
  (* peer.py *)
  | LogStored (self_id : option Z) (event_id : string)
  | LogForwarding (self_id : option Z) (event_id : string) (next_peer : endpoint)
  | LogNotFoundNoNext (self_id : option Z) (event_id : string)
  | LogFound (self_id : option Z) (event_id : string) (event_data : event)
  | LogNextPeerSet (self_id : option Z) (next_peer : endpoint)
  | LogTeardown (self_id : option Z)
  | LogPeerUnknownCommand (self_id : option Z) (m : message)
  | LogSendingQuery (self_id : option Z) (event_id : string) (next_peer : endpoint)
  | LogCheckingLocally
  | LogListenError (e : exn)
  | LogMainLoopError (e : exn).

Inductive effect : Type :=
  | Print (l : log)
  | Sendto (data : message) (dst : endpoint).

(** How a method call ends, with the object's fields and the effects so far. *)
Inductive result (S A : Type) : Type :=
  | Done (a : A) (s : S) (out : list effect)
  | Blocked (s : S) (out : list effect)
  | Raised (e : exn) (s : S) (out : list effect).
Arguments Done {S A} a s out.
Arguments Blocked {S A} s out.
Arguments Raised {S A} e s out.

Definition state_of {S A} (r : result S A) : S :=
  match r with Done _ s _ | Blocked s _ | Raised _ s _ => s end.

Definition out_of {S A} (r : result S A) : list effect :=
  match r with Done _ _ o | Blocked _ o | Raised _ _ o => o end.

Definition returned {S A} (r : result S A) : bool :=
  match r with Done _ _ _ => true | _ => false end.

(** The effects of [r] happen after [o]. *)
Definition after {S A} (o : list effect) (r : result S A) : result S A :=
  match r with
  | Done a s o' => Done a s (o ++ o')
  | Blocked s o' => Blocked s (o ++ o')
  | Raised e s o' => Raised e s (o ++ o')
  end.

Definition M (S A : Type) : Type := S → result S A.

Global Instance M_ret {S} : MRet (M S) := λ A a s, Done a s [].

Global Instance M_bind {S} : MBind (M S) := λ A B f m s,
  match m s with
  | Done a s' o => after o (f a s')
  | Blocked s' o => Blocked s' o
  | Raised e s' o => Raised e s' o
  end.

Definition reads {S A} (f : S → A) : M S A := λ s, Done (f s) s [].
Definition modify {S} (f : S → S) : M S unit := λ s, Done () (f s) [].
Definition emit {S} (e : effect) : M S unit := λ s, Done () s [e].
Definition print {S} (l : log) : M S unit := emit (Print l).
Definition raise {S A} (e : exn) : M S A := λ s, Raised e s [].

(** [try: body except Exception as e: handler e]. *)
Definition try_except {S A} (body : M S A) (handler : exn → M S A) : M S A := λ s,
  match body s with
  | Raised e s' o => after o (handler e s')
  | r => r
  end.

(** [for x in l: body x]. *)
Fixpoint for_each {S A} (l : list A) (body : A → M S unit) : M S unit :=
  match l with
  | [] => mret ()
  | x :: l' => body x;; for_each l' body
  end.

(** [enumerate(l)]. *)
Definition enumerate {A} (l : list A) : list (nat * A) := imap (λ i x, (i, x)) l.

(** [l[i]] for a list and an index that is not negative. *)
Definition index {S A} (l : list A) (i : nat) : M S A :=
  match l !! i with
  | Some x => mret x
  | None => raise IndexError
  end.

(** [l[i]] for a list and any integer: a negative index counts from the end. *)
Definition index_Z {S A} (l : list A) (i : Z) : M S A :=
  if decide (0 ≤ i)%Z then index l (Z.to_nat i)
  else if decide (0 ≤ Z.of_nat (length l) + i)%Z
       then index l (Z.to_nat (Z.of_nat (length l) + i))
       else raise IndexError.

(** [d[k]] for a dictionary. *)
Definition getitem {S K V} `{Countable K} (d : gmap K V) (k : K) : M S V :=
  match d !! k with
  | Some v => mret v
  | None => raise KeyError
  end.

(** [row.get(column)] on a row of [csv.DictReader]; a row is a dictionary, so
    a column name occurs at most once in it. *)
Fixpoint get (row : event) (column : string) : option string :=
  match row with
  | [] => None
  | (c, v) :: row' => if decide (c = column) then Some v else get row' column
  end.

(** [socket.sendto(json.dumps(data).encode(), dst)] on a datagram socket: the
    call raises [TypeError] when [dst] is [None] instead of an address pair,
    and otherwise hands the datagram to the network and returns; what happens
    to the datagram afterwards is not reported to the sender. *)
Definition sendto {S} (data : message) (dst : option endpoint) : M S unit :=
  match dst with
  | Some d => emit (Sendto data d)
  | None => raise TypeError
  end.

(** An object with a [threading.Lock] in [self.lock]. *)
Class Lockable (S : Type) := {
  lock_held : S → bool;
  set_lock : bool → S → S
}.

(** [with self.lock: body]. Acquiring a lock that is held blocks; here the
    holder can only be the calling thread itself or a thread that is blocked
    in turn, so the wait never ends. The lock is released when the body
    returns or raises. *)
Definition with_lock {S A} `{Lockable S} (body : M S A) : M S A := λ s,
  if lock_held s then Blocked s []
  else match body (set_lock true s) with
       | Done a s' o => Done a (set_lock false s') o
       | Blocked s' o => Blocked s' o
       | Raised e s' o => Raised e (set_lock false s') o
       end.

(** The [sendto] calls of a trace, in order. *)
Definition sends (o : list effect) : list (message * endpoint) :=
  omap (λ e, match e with Sendto d a => Some (d, a) | Print _ => None end) o.

(** [sorted(d.items(), key=lambda x: x[0])] for a dictionary with integer keys. *)
Definition key_le {V} (x y : Z * V) : Prop := (x.1 ≤ y.1)%Z.
Global Instance key_le_dec {V} (x y : Z * V) : Decision (key_le x y) :=
  Z_le_dec x.1 y.1.

Definition sorted_items {V} (d : gmap Z V) : list (Z * V) :=
  merge_sort key_le (map_to_list d).

(** [sorted(d.keys())]. *)
Definition sorted_keys {V} (d : gmap Z V) : list Z :=
  merge_sort Z.le (map fst (map_to_list d)).

(** ** manager.py *)
Module manager.

Record Manager : Type := mkManager {
  peers : gmap Z endpoint;
  next_peer_id : Z;
  running : bool;
  events : list event;
  lock : bool
}.

Global Instance Manager_lockable : Lockable Manager := {|
  lock_held := lock;
  set_lock b self := mkManager (peers self) (next_peer_id self) (running self) (events self) b
|}.

Definition set_peers (f : gmap Z endpoint → gmap Z endpoint) (self : Manager) : Manager :=
  mkManager (f (peers self)) (next_peer_id self) (running self) (events self) (lock self).
Definition set_next_peer_id (f : Z → Z) (self : Manager) : Manager :=
  mkManager (peers self) (f (next_peer_id self)) (running self) (events self) (lock self).
Definition set_running (b : bool) (self : Manager) : Manager :=
  mkManager (peers self) (next_peer_id self) b (events self) (lock self).

(** [Manager.__init__]: the state before any message is handled. *)
Definition init (evs : list event) : Manager := mkManager ∅ 0 true evs false.

(** [Manager.update_ring]. *)
Definition update_ring : M Manager unit :=
  sorted_peers ← with_lock (reads (λ self, sorted_items (peers self)));
  let n := length sorted_peers in
  if decide (n = 0) then print LogNoPeersInRing
  else
    for_each (enumerate sorted_peers) (λ '(i, (peer_id, (address, port))),
      let next_index := (i + 1) `mod` n in
      entry ← index sorted_peers next_index;
      let next_peer := entry.2 in
      let msg := SetNextPeer next_peer in
      try_except
        (sendto msg (Some (address, port));;
         print (LogSetNext peer_id next_peer))
        (λ e, print (LogSetNextError peer_id e))).

(** [Manager.register_peer], for a [register] message that came from [addr]. *)
Definition register_peer (peer_port : Z) (addr : endpoint) : M Manager unit :=
  let peer_address := addr.1 in
  peer_id ← with_lock (
    peer_id ← reads next_peer_id;
    modify (set_next_peer_id (λ n, n + 1)%Z);;
    modify (set_peers <[peer_id := (peer_address, peer_port)]>);;
    mret peer_id);
  print (LogRegistered peer_id peer_address peer_port);;
  sendto (SetId peer_id) (Some addr).

(** [Manager.remove_peer], for a [leave] message naming [peer_id]. *)
Definition remove_peer (peer_id : Z) : M Manager unit :=
  with_lock (
    ps ← reads peers;
    if decide (is_Some (ps !! peer_id)) then
      modify (set_peers (delete peer_id));;
      print (LogRemoved peer_id);;
      update_ring
    else
      print (LogRemoveUnknown peer_id)).

(** Python's builtins [hash] (on [str]) and [str] (on a row and on an [int]);
    [hash] is a function for the lifetime of one interpreter. *)
Section assignment.
Variable hash : string → Z.
Variable str_of_event : event → string.
Variable str_of_int : Z → string.

(** The [key_str] that [distribute_events] computes for a row. *)
Definition key_str (ev : event) : string :=
  match get ev "EVENT_ID" with
  | Some key => key
  | None => str_of_int (hash (str_of_event ev))
  end.

(** [Manager.distribute_events]. The [return] inside the [with] block is the
    [None] snapshot. *)
Definition distribute_events : M Manager unit :=
  snapshot ← with_lock (
    ps ← reads peers;
    if decide (ps = ∅) then
      print LogNoPeersRegistered;;
      mret None
    else
      let sorted_peer_ids := sorted_keys ps in
      mret (Some (sorted_peer_ids, length sorted_peer_ids)));
  match snapshot with
  | None => mret ()
  | Some (sorted_peer_ids, num_peers) =>
      print LogDistributing;;
      evs ← reads events;
      for_each evs (λ ev,
        let key_str := key_str ev in
        let assigned_index := (hash key_str `mod` Z.of_nat num_peers)%Z in
        assigned_peer_id ← index_Z sorted_peer_ids assigned_index;
        ps ← reads peers;
        assigned_peer ← getitem ps assigned_peer_id;
        let msg := Store key_str ev in
        try_except
          (sendto msg (Some assigned_peer))
          (λ e, print (LogStoreError assigned_peer_id e)));;
      print LogDistributionComplete
  end.

(** [Manager.teardown]. The registry is gone through in the order in which
    its entries were inserted, which is the ascending order of identity. *)
Definition teardown : M Manager unit :=
  with_lock (
    ps ← reads peers;
    for_each (sorted_items ps) (λ '(peer_id, (address, port)),
      let msg := Teardown in
      try_except
        (sendto msg (Some (address, port)))
        (λ e, print (LogTeardownError peer_id e))));;
  modify (set_running false);;
  print LogShuttingDown.

(** One turn of the loop of [Manager.console_thread]: the operator types [cmd]. *)
Definition console_command (cmd : string) : M Manager unit :=
  try_except
    (if decide (cmd = "setup") then update_ring
     else if decide (cmd = "distribute") then distribute_events
     else if decide (cmd = "teardown") then teardown
     else print LogUnknownConsoleCommand)
    (λ e, print (LogConsoleError e)).
End assignment.

(** [Manager.handle_message], for a datagram [message] received from [addr]. *)
Definition handle_message (message : message) (addr : endpoint) : M Manager unit :=
  match message with
  | Register peer_port => register_peer peer_port addr
  | StoreAck peer_id event_id => print (LogStoreAck peer_id event_id)
  | Leave peer_id => remove_peer peer_id
  | _ => print (LogUnknownCommand message)
  end.

(** The loop of [Manager.run] over the datagrams that arrive, in order. *)
Fixpoint run (inbox : list (message * endpoint)) : M Manager unit :=
  match inbox with
  | [] => mret ()
  | (message, addr) :: inbox' =>
      go ← reads running;
      if go : bool then
        try_except (handle_message message addr) (λ e, print (LogRunLoopError e));;
        run inbox'
      else mret ()
  end.

(** The identities handed out in a trace: the [set_id] replies, in order. *)
Definition issued (o : list effect) : list Z :=
  omap (λ e, match e with Sendto (SetId i) _ => Some i | _ => None end) o.

End manager.

(** ** peer.py *)
Module peer.

Definition MANAGER_ADDRESS : endpoint := ("127.0.0.1"%string, 5000%Z).

Record Peer : Type := mkPeer {
  p_port : Z;
  peer_id : option Z;
  manager_address : endpoint;
  running : bool;
  data_store : gmap string event;
  next_peer : option endpoint;
  lock : bool
}.

Global Instance Peer_lockable : Lockable Peer := {|
  lock_held := lock;
  set_lock b self :=
    mkPeer (p_port self) (peer_id self) (manager_address self) (running self)
           (data_store self) (next_peer self) b
|}.

Definition set_data_store (f : gmap string event → gmap string event) (self : Peer) : Peer :=
  mkPeer (p_port self) (peer_id self) (manager_address self) (running self)
         (f (data_store self)) (next_peer self) (lock self).
Definition set_next_peer (np : option endpoint) (self : Peer) : Peer :=
  mkPeer (p_port self) (peer_id self) (manager_address self) (running self)
         (data_store self) np (lock self).
Definition set_running (b : bool) (self : Peer) : Peer :=
  mkPeer (p_port self) (peer_id self) (manager_address self) b
         (data_store self) (next_peer self) (lock self).

(** [Peer.__init__]. *)
Definition init (port : Z) : Peer := mkPeer port None MANAGER_ADDRESS true ∅ None false.

(** The address the peer's socket is bound to. *)
Definition address_of (self : Peer) : endpoint := ("127.0.0.1"%string, p_port self).

(** [Peer.store_event]. *)
Definition store_event (event_id : string) (event_data : event) : M Peer unit :=
  with_lock (modify (set_data_store <[event_id := event_data]>));;
  self_id ← reads peer_id;
  print (LogStored self_id event_id).

(** [Peer.handle_store]. *)
Definition handle_store (event_id : string) (event_data : event) : M Peer unit :=
  store_event event_id event_data;;
  self_id ← reads peer_id;
  let ack := StoreAck self_id event_id in
  to ← reads manager_address;
  sendto ack (Some to).

(** [Peer.handle_find_event]. The [message] forwarded is the one received: a
    [find_event] dictionary is determined by its [event_id]. [addr] is where
    the datagram came from, or [None] when [query_event] calls locally. *)
Definition handle_find_event (event_id : string) (addr : option endpoint) : M Peer unit :=
  let message := FindEvent event_id in
  ds ← reads data_store;
  match ds !! event_id with
  | Some event_data =>
      let response := FoundEvent event_id event_data in
      sendto response addr
  | None =>
      np ← reads next_peer;
      self_id ← reads peer_id;
      match np with
      | Some next =>
          print (LogForwarding self_id event_id next);;
          sendto message (Some next)
      | None => print (LogNotFoundNoNext self_id event_id)
      end
  end.

(** [Peer.handle_found_event]. *)
Definition handle_found_event (event_id : string) (event_data : event) : M Peer unit :=
  self_id ← reads peer_id;
  print (LogFound self_id event_id event_data).

(** [Peer.handle_set_next_peer]. *)
Definition handle_set_next_peer (np : endpoint) : M Peer unit :=
  modify (set_next_peer (Some np));;
  self_id ← reads peer_id;
  print (LogNextPeerSet self_id np).

(** [Peer.handle_teardown]. *)
Definition handle_teardown : M Peer unit :=
  modify (set_running false);;
  self_id ← reads peer_id;
  print (LogTeardown self_id).

(** [Peer.handle_message]. *)
Definition handle_message (message : message) (addr : option endpoint) : M Peer unit :=
  match message with
  | Store event_id event_data => handle_store event_id event_data
  | FindEvent event_id => handle_find_event event_id addr
  | FoundEvent event_id event_data => handle_found_event event_id event_data
  | SetNextPeer np => handle_set_next_peer np
  | Teardown => handle_teardown
  | SetId _ => mret ()
  | _ =>
      self_id ← reads peer_id;
      print (LogPeerUnknownCommand self_id message)
  end.

(** [Peer.query_event]. *)
Definition query_event (event_id : string) : M Peer unit :=
  let msg := FindEvent event_id in
  np ← reads next_peer;
  self_id ← reads peer_id;
  match np with
  | Some next =>
      print (LogSendingQuery self_id event_id next);;
      sendto msg (Some next)
  | None =>
      print LogCheckingLocally;;
      handle_message msg None
  end.

(** [Peer.send_leave]. *)
Definition send_leave : M Peer unit :=
  self_id ← reads peer_id;
  to ← reads manager_address;
  match self_id with
  | Some i => sendto (Leave i) (Some to)
  | None => mret ()
  end;;
  modify (set_running false).

(** One turn of the loop of [Peer.listen]: a datagram [message] from [addr]. *)
Definition listen_once (message : message) (addr : endpoint) : M Peer unit :=
  try_except (handle_message message (Some addr)) (λ e, print (LogListenError e)).

(** The operator types [query <event_id>] at the prompt of [Peer.start]. *)
Definition console_query (event_id : string) : M Peer unit :=
  try_except (query_event event_id) (λ e, print (LogMainLoopError e)).

(** *** Peers on a network

    The peers of one ring and the datagrams under way between them. Every
    peer's listener handles the datagrams addressed to its socket one after
    the other; a datagram for an address where no running peer listens is
    lost. (A listener whose flag the console thread clears while it waits in
    [recvfrom] still handles one more datagram; the lemmas below are about
    peers whose flag is set.) *)

Record datagram : Type := mkDatagram {
  src : endpoint;
  dst : endpoint;
  payload : message
}.

Record network : Type := mkNetwork {
  nodes : list Peer;
  wire : list datagram;
  (** what each peer printed and sent so far, oldest first *)
  history : list (endpoint * effect)
}.

Definition outgoing (from : endpoint) (o : list effect) : list datagram :=
  (λ md, mkDatagram from md.2 md.1) <$> sends o.

(** The peer at position [i] runs [act]; its sends go on the wire. *)
Definition run_at (i : nat) (act : M Peer unit) (net : network) : network :=
  match nodes net !! i with
  | None => net
  | Some p =>
      let r := act p in
      mkNetwork (<[i := state_of r]> (nodes net))
                (wire net ++ outgoing (address_of p) (out_of r))
                (history net ++ (pair (address_of p) <$> out_of r))
  end.

Definition listening_at (a : endpoint) (p : Peer) : Prop :=
  address_of p = a ∧ running p = true.
Global Instance listening_at_dec a p : Decision (listening_at a p) := _.

(** The oldest datagram on the wire is delivered. *)
Definition step (net : network) : network :=
  match wire net with
  | [] => net
  | d :: rest =>
      let net' := mkNetwork (nodes net) rest (history net) in
      match list_find (listening_at (dst d)) (nodes net) with
      | None => net'
      | Some (i, _) => run_at i (listen_once (payload d) (src d)) net'
      end
  end.

Definition steps (k : nat) (net : network) : network := Nat.iter k step net.

(** The operator of the peer at position [i] asks for [event_id]. *)
Definition query (i : nat) (event_id : string) (net : network) : network :=
  run_at i (console_query event_id) net.

(** The peers at the positions of [nodes] form a ring: no two are bound to
    the same port, each is running, and the successor pointer of the peer at
    position [i] is the address of the peer at position [(i + 1) mod n]. *)
Definition successor_ok (nodes : list Peer) (ip : nat * Peer) : bool :=
  running ip.2 &&
  bool_decide (next_peer ip.2 = address_of <$> nodes !! ((ip.1 + 1) `mod` length nodes)).

Definition ring_ok (nodes : list Peer) : bool :=
  bool_decide (NoDup (p_port <$> nodes)) && forallb (successor_ok nodes) (enumerate nodes).

(** What a history shows: the forwarding hops (who forwarded which key to
    whom), the [found_event] answers sent (by whom, for which key, with which
    payload, to whom) and the answers displayed to an operator (where). *)
Definition forwards (h : list (endpoint * effect)) : list (endpoint * string * endpoint) :=
  omap (λ x, match x.2 with
             | Print (LogForwarding _ k next) => Some (x.1, k, next)
             | _ => None
             end) h.

Definition answers (h : list (endpoint * effect)) : list (endpoint * string * event * endpoint) :=
  omap (λ x, match x.2 with
             | Sendto (FoundEvent k v) to => Some (x.1, k, v, to)
             | _ => None
             end) h.

Definition displayed (h : list (endpoint * effect)) : list (endpoint * string * event) :=
  omap (λ x, match x.2 with
             | Print (LogFound _ k v) => Some (x.1, k, v)
             | _ => None
             end) h.

End peer.

(** ** Concrete registries and rings *)
Module examples.

Definition A : endpoint := ("A"%string, 9000%Z).
Definition B : endpoint := ("B"%string, 9001%Z).
Definition C : endpoint := ("C"%string, 9002%Z).
Definition D : endpoint := ("D"%string, 9003%Z).

(** The registry [{0:(A,9000), 1:(B,9001), 2:(C,9002)}]. *)
Definition registry3 : gmap Z endpoint := <[0%Z := A]> (<[2%Z := C]> (<[1%Z := B]> ∅)).

Definition evt1 : event := [("EVENT_ID", "EVT1"); ("STATE", "OHIO")]%string.
Definition evt2 : event := [("STATE", "IOWA"); ("YEARMONTH", "202401")]%string.

Definition manager3 : manager.Manager := manager.mkManager registry3 3 true [evt1; evt2] false.
Definition manager0 : manager.Manager := manager.init [evt1; evt2].

(** Stand-ins for the builtins, to run [distribute_events] on. *)
Definition hash0 (s : string) : Z := (Z.of_nat (String.length s) - 10)%Z.
Definition str_of_event0 (ev : event) : string := "row"%string.
Definition str_of_int0 (i : Z) : string := "int"%string.

(** A peer on [port] with identity [i], successor port [next] and store [ds]. *)
Definition node (i port next : Z) (ds : gmap string event) : peer.Peer :=
  peer.mkPeer port (Some i) peer.MANAGER_ADDRESS true ds (Some ("127.0.0.1"%string, next)) false.

(** Three peers in a ring; only the last one stores [EVT1]. *)
Definition ring3 : list peer.Peer :=
  [node 0 9000 9001 ∅; node 1 9001 9002 ∅; node 2 9002 9000 {[ "EVT1"%string := evt1 ]}].
Definition net3 : peer.network := peer.mkNetwork ring3 [] [].

(** A registered peer that has no successor yet and stores [EVT1]. *)
Definition lonely : peer.Peer :=
  peer.mkPeer 9000 (Some 0%Z) peer.MANAGER_ADDRESS true {[ "EVT1"%string := evt1 ]} None false.

(** A coordinator with one registered peer. *)
Definition manager1 : manager.Manager :=
  manager.mkManager {[ 0%Z := A ]} 1 true [evt1; evt2] false.

(** Three peers just started on one machine, and a coordinator that has
    registered them. *)
Definition fresh_nodes : list peer.Peer := [peer.init 9000; peer.init 9001; peer.init 9002].
Definition manager_local : manager.Manager :=
  manager.mkManager
    (<[0%Z := ("127.0.0.1"%string, 9000%Z)]>
       (<[2%Z := ("127.0.0.1"%string, 9002%Z)]>
          (<[1%Z := ("127.0.0.1"%string, 9001%Z)]> ∅)))
    3 true [evt1; evt2] false.

End examples.

(** * Properties *)

(** ** The method monad *)

Lemma after_nil {S A} (r : result S A) : after [] r = r.
Proof. by destruct r. Qed.

Lemma state_of_after {S A} o (r : result S A) : state_of (after o r) = state_of r.
Proof. by destruct r. Qed.

Lemma out_of_after {S A} o (r : result S A) : out_of (after o r) = o ++ out_of r.
Proof. by destruct r. Qed.

Lemma bind_done {S A B} (m : M S A) (f : A → M S B) s a s' o :
  m s = Done a s' o → (m ≫= f) s = after o (f a s').
Proof. unfold mbind, M_bind. by intros ->. Qed.

Lemma bind_blocked {S A B} (m : M S A) (f : A → M S B) s s' o :
  m s = Blocked s' o → (m ≫= f) s = Blocked s' o.
Proof. unfold mbind, M_bind. by intros ->. Qed.

Lemma sends_app o1 o2 : sends (o1 ++ o2) = sends o1 ++ sends o2.
Proof. apply omap_app. Qed.

(** A loop whose body, at every element, returns without touching the state
    does the bodies' effects in order. *)
Lemma for_each_effects {S A} (l : list A) (body : A → M S unit) (f : A → list effect) s :
  (∀ x, x ∈ l → body x s = Done () s (f x)) →
  for_each l body s = Done () s (l ≫= f).
Proof.
  induction l as [|x l IH]; intros Hbody; [done|].
  simpl. erewrite bind_done; last by apply Hbody; left.
  rewrite IH; [done|]. intros y Hy. apply Hbody. by right.
Qed.

(** ** Sorting a dictionary by key *)

Global Instance key_le_total {V} : Total (@key_le V).
Proof. intros x y. unfold key_le. lia. Qed.

Global Instance key_le_trans {V} : Transitive (@key_le V).
Proof. intros x y z. unfold key_le. lia. Qed.

Lemma sorted_items_perm {V} (d : gmap Z V) : sorted_items d ≡ₚ map_to_list d.
Proof. apply merge_sort_Permutation. Qed.

Lemma elem_of_sorted_items {V} (d : gmap Z V) k v :
  (k, v) ∈ sorted_items d ↔ d !! k = Some v.
Proof. by rewrite sorted_items_perm, elem_of_map_to_list. Qed.

Lemma length_sorted_items {V} (d : gmap Z V) : length (sorted_items d) = size d.
Proof. by rewrite sorted_items_perm, length_map_to_list. Qed.

Lemma sorted_items_keys_NoDup {V} (d : gmap Z V) : NoDup (sorted_items d).*1.
Proof. rewrite sorted_items_perm. apply NoDup_fst_map_to_list. Qed.

Lemma sorted_items_sorted {V} (d : gmap Z V) : StronglySorted key_le (sorted_items d).
Proof. apply StronglySorted_merge_sort; apply _. Qed.

(** The keys of the sorted items ascend strictly. *)
Lemma sorted_items_ascending {V} (d : gmap Z V) i j x y :
  sorted_items d !! i = Some x → sorted_items d !! j = Some y → i < j → (x.1 < y.1)%Z.
Proof.
  intros Hi Hj Hij.
  assert (x.1 ≠ y.1) as Hne.
  { intros Heq. pose proof (sorted_items_keys_NoDup d) as Hnd.
    assert (i = j); [|lia].
    eapply NoDup_lookup; [exact Hnd| |];
      rewrite list_lookup_fmap; [by rewrite Hi | by rewrite Hj, Heq]. }
  assert (key_le x y); [|unfold key_le in *; lia].
  pose proof (sorted_items_sorted d) as Hs.
  revert i j Hi Hj Hij. clear Hne.
  induction Hs as [|z l Hl IH Hall]; intros i j Hi Hj Hij; [done|].
  destruct i as [|i], j as [|j]; try lia; simplify_eq/=.
  - rewrite Forall_forall in Hall. apply Hall. by eapply list_elem_of_lookup_2.
  - eapply IH; [done..|lia].
Qed.

Lemma sorted_keys_items {V} (d : gmap Z V) : sorted_keys d = (sorted_items d).*1.
Proof.
  apply (Sorted_unique Z.le).
  - apply Sorted_merge_sort; apply _.
  - apply StronglySorted_Sorted.
    pose proof (sorted_items_sorted d) as Hs.
    induction Hs as [|z l Hl IH Hall]; csimpl; constructor; [done|].
    rewrite Forall_fmap. eapply Forall_impl; [exact Hall|]. by intros [??].
  - unfold sorted_keys. rewrite merge_sort_Permutation. by rewrite sorted_items_perm.
Qed.

(** ** The coordinator *)
Section manager_properties.
Import manager.

Lemma manager_unlock (self : Manager) :
  lock self = false → set_lock false (set_lock true self) = self.
Proof. destruct self; simpl; by intros ->. Qed.

Lemma manager_relock (self : Manager) :
  lock self = false →
  mkManager (peers self) (next_peer_id self) (running self) (events self) false = self.
Proof. destruct self; simpl; by intros ->. Qed.

Lemma with_lock_free {A} (body : M Manager A) (self : Manager) :
  lock self = false →
  with_lock body self =
    match body (set_lock true self) with
    | Done a s' o => Done a (set_lock false s') o
    | Blocked s' o => Blocked s' o
    | Raised e s' o => Raised e (set_lock false s') o
    end.
Proof. unfold with_lock; simpl. by intros ->. Qed.

Lemma with_lock_held {A} (body : M Manager A) (self : Manager) :
  lock self = true → with_lock body self = Blocked self [].
Proof. unfold with_lock; simpl. by intros ->. Qed.

Lemma enumerate_lookup {A} (l : list A) i x :
  enumerate l !! i = Some x ↔ x.1 = i ∧ l !! i = Some x.2.
Proof.
  unfold enumerate. rewrite list_lookup_imap. destruct (l !! i) as [y|]; simpl.
  - destruct x as [j z]; simpl. split; [by intros [= <- <-]|by intros [-> [= ->]]].
  - split; [done|by intros [_ ?]].
Qed.

Lemma elem_of_enumerate {A} (l : list A) x :
  x ∈ enumerate l ↔ l !! x.1 = Some x.2.
Proof.
  rewrite list_elem_of_lookup. split.
  - intros [i [<- ?]%enumerate_lookup]. done.
  - intros ?. exists x.1. by apply enumerate_lookup.
Qed.

Lemma ring_successor_exists {A} (ring : list A) i :
  i < length ring → is_Some (ring !! ((i + 1) `mod` length ring)).
Proof. intros Hi. apply lookup_lt_is_Some. apply Nat.mod_upper_bound. lia. Qed.

(** What [update_ring] does when it gets the lock: the whole run. *)
Lemma update_ring_run (self : Manager) :
  lock self = false →
  update_ring self = Done () self
    (let ring := sorted_items (peers self) in
     if decide (length ring = 0) then [Print LogNoPeersInRing]
     else enumerate ring ≫= λ ip,
       match ring !! ((ip.1 + 1) `mod` length ring) with
       | Some q => [Sendto (SetNextPeer q.2) ip.2.2; Print (LogSetNext ip.2.1 q.2)]
       | None => []
       end).
Proof.
  intros Hfree. unfold update_ring.
  erewrite bind_done; last first.
  { rewrite with_lock_free by done. unfold reads. by rewrite manager_unlock. }
  simpl. rewrite after_nil.
  destruct (Nat.eq_dec (length (sorted_items (peers self))) 0) as [Hn|Hn];
    [by rewrite !decide_True by done|rewrite !decide_False by done].
  apply for_each_effects. intros [i [peer_id [address port]]] Hin.
  apply elem_of_enumerate in Hin; simpl in Hin.
  destruct (ring_successor_exists (sorted_items (peers self)) i) as [q Hq].
  { by eapply lookup_lt_Some. }
  unfold index. simpl. rewrite Hq. done.
Qed.

Lemma sends_ring_hop (ring : list (Z * endpoint)) (l : list (nat * (Z * endpoint))) :
  sends (l ≫= λ ip,
    match ring !! ((ip.1 + 1) `mod` length ring) with
    | Some q => [Sendto (SetNextPeer q.2) ip.2.2; Print (LogSetNext ip.2.1 q.2)]
    | None => []
    end) =
  omap (λ ip, q ← ring !! ((ip.1 + 1) `mod` length ring); Some (SetNextPeer q.2, ip.2.2)) l.
Proof.
  induction l as [|ip l IH]; [done|]. csimpl. rewrite sends_app, IH.
  by destruct (ring !! _).
Qed.

Lemma ring_hops_fmap (ring : list (Z * endpoint)) (l : list (nat * (Z * endpoint))) :
  (∀ ip, ip ∈ l → is_Some (ring !! ((ip.1 + 1) `mod` length ring))) →
  omap (λ ip, q ← ring !! ((ip.1 + 1) `mod` length ring); Some (SetNextPeer q.2, ip.2.2)) l
  = (λ ip, (SetNextPeer (default ip.2 (ring !! ((ip.1 + 1) `mod` length ring))).2, ip.2.2))
      <$> l.
Proof.
  induction l as [|ip l IH]; intros Hl; [done|]. csimpl.
  destruct (Hl ip) as [q Hq]; [by left|]. rewrite Hq. simpl.
  f_equal. apply IH. intros ??. apply Hl. by right.
Qed.

(** The [sendto] calls of a rebuild that gets the lock, for a registry that
    is not empty. *)
Lemma update_ring_sends (self : Manager) :
  lock self = false →
  sorted_items (peers self) ≠ [] →
  sends (out_of (update_ring self)) =
    (λ ip, (SetNextPeer (default ip.2 (sorted_items (peers self) !!
              ((ip.1 + 1) `mod` length (sorted_items (peers self))))).2, ip.2.2))
      <$> enumerate (sorted_items (peers self)).
Proof.
  intros Hfree Hne. rewrite update_ring_run by done. simpl.
  rewrite decide_False by by destruct (sorted_items (peers self)).
  rewrite sends_ring_hop. apply ring_hops_fmap.
  intros ip Hip%elem_of_enumerate. apply ring_successor_exists.
  by eapply lookup_lt_Some.
Qed.

(** C1. A rebuild that gets the lock leaves the coordinator's state as it
    was; over the registry's entries in ascending order of identity it sends
    one successor update per peer, in ring order, the one for the peer at
    position [i] going to that peer's address and naming the address of the
    peer at position [(i + 1) mod n]; a single peer is named its own
    successor; with an empty registry it only prints a report. *)
Theorem update_ring_successors (self : Manager) :
  lock self = false →
  let ring := sorted_items (peers self) in
  let n := length ring in
  ∃ out,
    update_ring self = Done () self out ∧
    (∀ k v, (k, v) ∈ ring ↔ peers self !! k = Some v) ∧
    (∀ i j x y, ring !! i = Some x → ring !! j = Some y → i < j → (x.1 < y.1)%Z) ∧
    (n = 0 → out = [Print LogNoPeersInRing]) ∧
    (n ≠ 0 →
       length (sends out) = n ∧
       ∀ i p, ring !! i = Some p →
         ∃ q, ring !! ((i + 1) `mod` n) = Some q ∧
              sends out !! i = Some (SetNextPeer q.2, p.2)) ∧
    (∀ p, ring = [p] → sends out = [(SetNextPeer p.2, p.2)]).
Proof.
  intros Hfree ring n.
  pose proof (update_ring_run self Hfree) as Hrun.
  pose proof (update_ring_sends self Hfree) as Hsends.
  rewrite Hrun in Hsends. simpl in Hsends. fold ring in Hsends.
  eexists. split; [exact Hrun|]. simpl. fold ring. fold n.
  split; [apply elem_of_sorted_items|].
  split; [apply sorted_items_ascending|].
  split; [intros Hn; by rewrite decide_True|].
  split.
  - intros Hn. unfold n in *.
    rewrite Hsends by (intros Hnil; by rewrite Hnil in Hn).
    split.
    + rewrite length_fmap. unfold enumerate. by rewrite length_imap.
    + intros i p Hi.
      destruct (ring_successor_exists ring i) as [q Hq]; [by eapply lookup_lt_Some|].
      exists q. split; [done|].
      rewrite list_lookup_fmap.
      assert (enumerate ring !! i = Some (i, p)) as -> by by apply enumerate_lookup.
      simpl. by rewrite Hq.
  - intros p Hp. unfold n. rewrite Hsends by by rewrite Hp. by rewrite Hp.
Qed.

(** *** Registration and removal *)

Lemma register_peer_run (peer_port : Z) (addr : endpoint) (self : Manager) :
  lock self = false →
  register_peer peer_port addr self =
    Done ()
      (mkManager (<[next_peer_id self := (addr.1, peer_port)]> (peers self))
                 (next_peer_id self + 1) (running self) (events self) false)
      [Print (LogRegistered (next_peer_id self) addr.1 peer_port);
       Sendto (SetId (next_peer_id self)) addr].
Proof. destruct self; simpl; by intros ->. Qed.

Lemma register_peer_held (peer_port : Z) (addr : endpoint) (self : Manager) :
  lock self = true → register_peer peer_port addr self = Blocked self [].
Proof. destruct self; simpl; by intros ->. Qed.

Lemma remove_peer_held (peer_id : Z) (self : Manager) :
  lock self = true → remove_peer peer_id self = Blocked self [].
Proof. apply with_lock_held. Qed.

Lemma remove_peer_absent (peer_id : Z) (self : Manager) :
  lock self = false → peers self !! peer_id = None →
  remove_peer peer_id self = Done () self [Print (LogRemoveUnknown peer_id)].
Proof.
  intros Hfree Habs. unfold remove_peer. rewrite with_lock_free by done.
  unfold mbind, M_bind, reads. simpl. rewrite Habs.
  rewrite decide_False by by intros [??]. simpl.
  f_equal. by apply manager_unlock.
Qed.

(** Removing a registered peer: the entry goes, the line is printed, and
    [update_ring] is entered while [remove_peer] still holds the lock. *)
Lemma remove_peer_present (peer_id : Z) (self : Manager) :
  lock self = false → is_Some (peers self !! peer_id) →
  let entered := set_lock true (set_peers (delete peer_id) self) in
  remove_peer peer_id self =
    match after [Print (LogRemoved peer_id)] (update_ring entered) with
    | Done a s' o => Done a (set_lock false s') o
    | Blocked s' o => Blocked s' o
    | Raised e s' o => Raised e (set_lock false s') o
    end.
Proof.
  intros Hfree Hin. unfold remove_peer. rewrite with_lock_free by done.
  unfold mbind at 1. unfold M_bind at 1. unfold reads. simpl.
  rewrite decide_True by done. rewrite after_nil.
  unfold mbind at 1. unfold M_bind at 1. unfold modify. by simpl.
Qed.

Lemma remove_peer_present_run (peer_id : Z) (self : Manager) :
  lock self = false → is_Some (peers self !! peer_id) →
  remove_peer peer_id self =
    Blocked (set_lock true (set_peers (delete peer_id) self)) [Print (LogRemoved peer_id)].
Proof.
  intros Hfree Hin. rewrite remove_peer_present by done.
  unfold update_ring. erewrite bind_blocked; [done|]. by apply with_lock_held.
Qed.

(** Whatever happens, [remove_peer] leaves the counter alone and the
    registry without the identity, unless it could not get the lock. *)
Lemma remove_peer_state (peer_id : Z) (self : Manager) :
  next_peer_id (state_of (remove_peer peer_id self)) = next_peer_id self ∧
  issued (out_of (remove_peer peer_id self)) = [] ∧
  peers (state_of (remove_peer peer_id self)) =
    if lock self then peers self else delete peer_id (peers self).
Proof.
  destruct (lock self) eqn:Hlock.
  - by rewrite remove_peer_held.
  - destruct (peers self !! peer_id) as [a|] eqn:Hin.
    + by rewrite remove_peer_present_run by done.
    + rewrite remove_peer_absent by done. simpl. by rewrite delete_id.
Qed.

(** *** The listener loop *)

Lemma run_cons message addr inbox (self : Manager) :
  run ((message, addr) :: inbox) self =
    if running self then
      match try_except (handle_message message addr)
                       (λ e, print (LogRunLoopError e)) self with
      | Done _ s' o => after o (run inbox s')
      | Blocked s' o => Blocked s' o
      | Raised e s' o => Raised e s' o
      end
    else Done () self [].
Proof.
  simpl. unfold mbind at 1. unfold M_bind at 1. unfold reads.
  destruct (running self); [|done]. rewrite after_nil. done.
Qed.

Lemma run_leave_absent peer_id addr inbox (self : Manager) :
  running self = true → lock self = false → peers self !! peer_id = None →
  run ((Leave peer_id, addr) :: inbox) self =
    after [Print (LogRemoveUnknown peer_id)] (run inbox self).
Proof.
  intros Hrun Hfree Habs. rewrite run_cons, Hrun. unfold try_except.
  cbn [handle_message]. by rewrite remove_peer_absent by done.
Qed.

Lemma run_leave_present peer_id addr inbox (self : Manager) :
  running self = true → lock self = false → is_Some (peers self !! peer_id) →
  run ((Leave peer_id, addr) :: inbox) self =
    Blocked (set_lock true (set_peers (delete peer_id) self)) [Print (LogRemoved peer_id)].
Proof.
  intros Hrun Hfree Hin. rewrite run_cons, Hrun. unfold try_except.
  cbn [handle_message]. by rewrite remove_peer_present_run by done.
Qed.

Lemma issued_app o1 o2 : issued (o1 ++ o2) = issued o1 ++ issued o2.
Proof. apply omap_app. Qed.

(** One datagram handled: at most one identity goes out, the counter's
    value, and the counter moves past it. *)
Lemma handle_message_issues message addr (self : Manager) :
  let r := try_except (handle_message message addr)
                      (λ e, print (LogRunLoopError e)) self in
  ∃ b : bool,
    issued (out_of r) = (if b then [next_peer_id self] else []) ∧
    next_peer_id (state_of r) = (next_peer_id self + (if b then 1 else 0))%Z ∧
    (∀ id, is_Some (peers (state_of r) !! id) →
           is_Some (peers self !! id) ∨ (b = true ∧ id = next_peer_id self)).
Proof.
  intros r. subst r. unfold try_except.
  destruct message; simpl;
    try (exists false; split_and!; [done|lia|by left]).
  - (* register *)
    destruct (lock self) eqn:Hlock.
    + rewrite register_peer_held by done. exists false. split_and!; [done|simpl; lia|by left].
    + rewrite register_peer_run by done. exists true. split_and!; [done|done|].
      simpl. intros id Hid. destruct (decide (id = next_peer_id self)) as [->|Hne]; [by right|].
      left. by rewrite lookup_insert_ne in Hid.
  - (* leave *)
    destruct (remove_peer_state peer_id self) as (Hn & Hi & Hp).
    exists false.
    destruct (remove_peer peer_id self) as [a s' o|s' o|e s' o] eqn:Hr; simpl in *.
    + split_and!; [done|lia|]. intros id Hid. left. rewrite Hp in Hid.
      destruct (lock self); [done|]. by apply lookup_delete_is_Some in Hid as [_ ?].
    + split_and!; [done|lia|]. intros id Hid. left. rewrite Hp in Hid.
      destruct (lock self); [done|]. by apply lookup_delete_is_Some in Hid as [_ ?].
    + split_and!; [|lia|].
      * rewrite issued_app, Hi. done.
      * intros id Hid. left. rewrite Hp in Hid.
        destruct (lock self); [done|]. by apply lookup_delete_is_Some in Hid as [_ ?].
Qed.

(** The loop from any state: the identities issued are the counter's
    successive values. *)
Lemma run_issues inbox (self : Manager) :
  let r := run inbox self in
  let k := length (issued (out_of r)) in
  issued (out_of r) = (λ i, next_peer_id self + Z.of_nat i)%Z <$> seq 0 k ∧
  next_peer_id (state_of r) = (next_peer_id self + Z.of_nat k)%Z ∧
  (∀ id, is_Some (peers (state_of r) !! id) →
         is_Some (peers self !! id) ∨ id ∈ issued (out_of r)).
Proof.
  revert self. induction inbox as [|[message addr] inbox IH]; intros self.
  { simpl. split_and!; [done|lia|by left]. }
  cbv zeta. rewrite run_cons. destruct (running self).
  2:{ simpl. split_and!; [done|lia|by left]. }
  destruct (handle_message_issues message addr self) as (b & Hi & Hn & Hp).
  cbv zeta in Hi, Hn, Hp.
  destruct (try_except _ _ self) as [a s' o|s' o|e s' o]; simpl in Hi, Hn, Hp.
  - destruct (IH s') as (IHi & IHn & IHp). cbv zeta in IHi, IHn, IHp.
    rewrite out_of_after, state_of_after, issued_app, Hi.
    set (k := length (issued (out_of (run inbox s')))) in *.
    destruct b; simpl.
    + split_and!.
      * f_equal; [lia|]. rewrite IHi at 1. rewrite <- fmap_S_seq, <- list_fmap_compose.
        apply list_fmap_ext. intros ???. simpl. lia.
      * lia.
      * intros id Hid. destruct (IHp id Hid) as [Hs|Hs].
        -- destruct (Hp id Hs) as [?|[_ ->]]; [by left|]. right. by left.
        -- right. by right.
    + replace (next_peer_id s') with (next_peer_id self) in * by lia.
      split_and!; [done|lia|].
      intros id Hid. destruct (IHp id Hid) as [Hs|Hs]; [|by right].
      destruct (Hp id Hs) as [?|[? _]]; [by left|done].
  - simpl. rewrite Hi. destruct b; simpl.
    + split_and!; [f_equal; lia|lia|].
      intros id Hid. destruct (Hp id Hid) as [?|[_ ->]]; [by left|]. right. by left.
    + split_and!; [done|lia|]. intros id Hid. destruct (Hp id Hid) as [?|[? _]]; [by left|done].
  - simpl. rewrite Hi. destruct b; simpl.
    + split_and!; [f_equal; lia|lia|].
      intros id Hid. destruct (Hp id Hid) as [?|[_ ->]]; [by left|]. right. by left.
    + split_and!; [done|lia|]. intros id Hid. destruct (Hp id Hid) as [?|[? _]]; [by left|done].
Qed.

(** C4. Whatever datagrams the coordinator handles, starting from its
    initial state, the identities it hands out are 0, 1, 2, ... in the order
    of issue: they start at 0, ascend strictly and never repeat, the counter
    stays ahead of them, every registered identity is one of them, and a
    removal never moves the counter, so the identity of a peer that left is
    not handed out again. *)
Theorem issued_identities_fresh (evs : list event) (inbox : list (message * endpoint)) :
  let r := run inbox (init evs) in
  let ids := issued (out_of r) in
  ids = Z.of_nat <$> seq 0 (length ids) ∧
  NoDup ids ∧
  (∀ i j x y, ids !! i = Some x → ids !! j = Some y → i < j → (x < y)%Z) ∧
  next_peer_id (state_of r) = Z.of_nat (length ids) ∧
  (∀ id, is_Some (peers (state_of r) !! id) → id ∈ ids) ∧
  (∀ id self, next_peer_id (state_of (remove_peer id self)) = next_peer_id self).
Proof.
  intros r ids.
  destruct (run_issues inbox (init evs)) as (Hi & Hn & Hp).
  cbv zeta in Hi, Hn, Hp. fold r in Hi, Hn, Hp. fold ids in Hi, Hn, Hp.
  simpl in Hi, Hn.
  assert (ids = Z.of_nat <$> seq 0 (length ids)) as Hids.
  { rewrite Hi at 1. apply list_fmap_ext. intros ???. lia. }
  assert (∀ i x, ids !! i = Some x → x = Z.of_nat i) as Hlook.
  { intros i x. rewrite Hids, list_lookup_fmap.
    intros [y [[-> _]%lookup_seq ->]]%fmap_Some. done. }
  split_and!; [done| | |lia| |].
  - apply NoDup_alt. intros i j x ?%Hlook ?%Hlook. lia.
  - intros i j x y ?%Hlook ?%Hlook. lia.
  - intros id Hid. destruct (Hp id Hid) as [Hs|Hs]; [|done].
    simpl in Hs. rewrite lookup_empty in Hs. by destruct Hs.
  - intros id self. apply remove_peer_state.
Qed.

(** C5, as the code has it. A registration that gets the lock records the
    peer under the next identity and answers [set_id]; it sends nothing
    else, so no successor update. A removal of a registered identity takes
    the entry out, reports it, and enters [update_ring]. A rebuild that gets
    the lock, which is what the operator's [setup] command runs, sends one
    successor update per registered peer. *)
Theorem membership_change_effects (self : Manager) :
  lock self = false →
  (∀ peer_port addr,
     let r := register_peer peer_port addr self in
     returned r = true ∧
     peers (state_of r) = <[next_peer_id self := (addr.1, peer_port)]> (peers self) ∧
     out_of r = [Print (LogRegistered (next_peer_id self) addr.1 peer_port);
                 Sendto (SetId (next_peer_id self)) addr]) ∧
  (∀ peer_id, is_Some (peers self !! peer_id) →
     let entered := set_lock true (set_peers (delete peer_id) self) in
     peers (state_of (remove_peer peer_id self)) = delete peer_id (peers self) ∧
     out_of (remove_peer peer_id self) =
       Print (LogRemoved peer_id) :: out_of (update_ring entered)) ∧
  returned (update_ring self) = true ∧
  length (sends (out_of (update_ring self))) = size (peers self).
Proof.
  intros Hfree. split_and!.
  - intros peer_port addr. cbv zeta. by rewrite register_peer_run.
  - intros peer_id Hin. cbv zeta. split.
    + destruct (remove_peer_state peer_id self) as (_ & _ & ->). by rewrite Hfree.
    + rewrite remove_peer_present by done.
      by destruct (update_ring _).
  - by rewrite update_ring_run.
  - rewrite <- length_sorted_items.
    destruct (sorted_items (peers self)) as [|p l] eqn:Hl.
    + rewrite update_ring_run by done. simpl. by rewrite Hl.
    + rewrite update_ring_sends by (done || by rewrite Hl).
      rewrite length_fmap. unfold enumerate. by rewrite length_imap, Hl.
Qed.

(** C7. Removing an identity that is not registered changes nothing and
    only prints the warning; a removal leaves the registry without the
    identity; and two [leave] datagrams for one identity leave the registry
    as one does. *)
Theorem remove_peer_idempotent (self : Manager) (peer_id : Z) (a1 a2 : endpoint) :
  lock self = false →
  (peers self !! peer_id = None →
     remove_peer peer_id self = Done () self [Print (LogRemoveUnknown peer_id)]) ∧
  peers (state_of (remove_peer peer_id self)) = delete peer_id (peers self) ∧
  peers (state_of (run [(Leave peer_id, a1); (Leave peer_id, a2)] self)) =
    peers (state_of (run [(Leave peer_id, a1)] self)).
Proof.
  intros Hfree. split_and!.
  - by apply remove_peer_absent.
  - destruct (remove_peer_state peer_id self) as (_ & _ & ->). by rewrite Hfree.
  - destruct (running self) eqn:Hrun; [|by rewrite !run_cons, Hrun].
    destruct (peers self !! peer_id) as [a|] eqn:Hin.
    + by rewrite !run_leave_present by done.
    + by rewrite !run_leave_absent, !state_of_after by done.
Qed.

(** *** Key assignment *)
Section assignment_properties.
Variable hash : string → Z.
Variable str_of_event : event → string.
Variable str_of_int : Z → string.

Abbreviation key_str := (key_str hash str_of_event str_of_int).
Abbreviation distribute_events := (distribute_events hash str_of_event str_of_int).

Lemma distribute_events_held (self : Manager) :
  lock self = true → distribute_events self = Blocked self [].
Proof.
  intros Hheld. unfold manager.distribute_events.
  erewrite bind_blocked; [done|]. by apply with_lock_held.
Qed.

Lemma distribute_events_empty (self : Manager) :
  lock self = false → peers self = ∅ →
  distribute_events self = Done () self [Print LogNoPeersRegistered].
Proof.
  intros Hfree Hempty. unfold manager.distribute_events.
  erewrite bind_done; last first.
  { rewrite with_lock_free by done. unfold mbind, M_bind, reads. simpl.
    rewrite decide_True by done. simpl. by rewrite manager_relock. }
  done.
Qed.

(** The position in the ascending order of identities that a key hashes to. *)
Lemma owner_exists (self : Manager) (key : string) :
  peers self ≠ ∅ →
  ∃ id a,
    sorted_items (peers self) !!
      Z.to_nat (hash key `mod` Z.of_nat (length (sorted_items (peers self)))) = Some (id, a) ∧
    peers self !! id = Some a.
Proof.
  intros Hne.
  assert (length (sorted_items (peers self)) ≠ 0) as Hlen.
  { rewrite length_sorted_items. by apply map_size_non_empty_iff. }
  destruct (lookup_lt_is_Some_2 (sorted_items (peers self))
    (Z.to_nat (hash key `mod` Z.of_nat (length (sorted_items (peers self))))))
    as [[id a] Hl].
  { pose proof (Z.mod_pos_bound (hash key)
      (Z.of_nat (length (sorted_items (peers self))))). lia. }
  exists id, a. split; [done|].
  apply elem_of_sorted_items. by eapply list_elem_of_lookup_2.
Qed.

(** What [distribute_events] does when it gets the lock and some peer is
    registered: the whole run. *)
Lemma distribute_events_run (self : Manager) :
  lock self = false → peers self ≠ ∅ →
  distribute_events self = Done () self
    (Print LogDistributing ::
     (events self ≫= λ ev,
        match sorted_items (peers self) !!
                Z.to_nat (hash (key_str ev) `mod`
                          Z.of_nat (length (sorted_items (peers self)))) with
        | Some entry => [Sendto (Store (key_str ev) ev) entry.2]
        | None => []
        end) ++ [Print LogDistributionComplete]).
Proof.
  intros Hfree Hne. unfold manager.distribute_events.
  erewrite bind_done; last first.
  { rewrite with_lock_free by done. unfold mbind, M_bind, reads. simpl.
    rewrite decide_False by done. simpl. by rewrite manager_relock. }
  rewrite after_nil.
  erewrite bind_done; last done.
  erewrite bind_done; last done.
  erewrite bind_done; last first.
  { apply for_each_effects with
      (f := λ ev, match sorted_items (peers self) !!
                Z.to_nat (hash (key_str ev) `mod`
                          Z.of_nat (length (sorted_items (peers self)))) with
        | Some entry => [Sendto (Store (key_str ev) ev) entry.2]
        | None => []
        end).
    intros ev _.
    destruct (owner_exists self (key_str ev) Hne) as (id & a & Hl & Hp).
    rewrite Hl. rewrite sorted_keys_items, length_fmap.
    unfold index_Z. rewrite decide_True; last first.
    { apply Z.mod_pos_bound.
      assert (length (sorted_items (peers self)) ≠ 0); [|lia].
      rewrite length_sorted_items. by apply map_size_non_empty_iff. }
    unfold index. rewrite list_lookup_fmap, Hl. simpl.
    unfold mbind, M_bind, mret, M_ret, reads, getitem. simpl. rewrite Hp. done. }
  done.
Qed.

(** C6. With an empty registry [distribute_events] sends nothing and
    changes nothing, whatever the rows loaded; when it gets the lock it
    returns after printing that no peers are registered. *)
Theorem distribute_events_refused (self : Manager) :
  peers self = ∅ →
  let r := distribute_events self in
  state_of r = self ∧
  sends (out_of r) = [] ∧
  (lock self = false → r = Done () self [Print LogNoPeersRegistered]).
Proof.
  intros Hempty r. subst r. destruct (lock self) eqn:Hlock.
  - by rewrite distribute_events_held.
  - by rewrite distribute_events_empty.
Qed.

(** The [store] datagrams of a run, row by row. *)
Lemma distribute_events_sends (self : Manager) :
  lock self = false → peers self ≠ ∅ →
  Forall2 (λ ev s, ∃ id a,
             sorted_items (peers self) !!
               Z.to_nat (hash (key_str ev) `mod`
                         Z.of_nat (length (sorted_items (peers self)))) = Some (id, a) ∧
             s = (Store (key_str ev) ev, a))
          (events self) (sends (out_of (distribute_events self))).
Proof.
  intros Hfree Hne. rewrite distribute_events_run by done.
  cbn [out_of].
  change (sends (Print LogDistributing :: ?l)) with (sends l).
  rewrite sends_app. simpl. rewrite app_nil_r.
  induction (events self) as [|ev evs IH]; [constructor|].
  csimpl. rewrite sends_app.
  destruct (owner_exists self (key_str ev) Hne) as (id & a & Hl & _).
  rewrite Hl. simpl. constructor; [|done]. by exists id, a.
Qed.

(** C2. When it gets the lock and some peer is registered,
    [distribute_events] returns with the coordinator's state unchanged
    and sends one [store] per loaded row, in order: the row goes under
    its key to the address of the peer at position [hash(key) mod n] of
    the registry's entries in ascending order of identity. The key is
    the row's [EVENT_ID] when it has one and otherwise the digest
    [str(hash(str(row)))]. In any two runs over the same registry, rows
    with equal keys go to the same address. *)
Theorem distribute_events_owner (self : Manager) :
  lock self = false → peers self ≠ ∅ →
  let ring := sorted_items (peers self) in
  let n := length ring in
  ∃ out,
    distribute_events self = Done () self out ∧
    (∀ i j x y, ring !! i = Some x → ring !! j = Some y → i < j → (x.1 < y.1)%Z) ∧
    (∀ k v, (k, v) ∈ ring ↔ peers self !! k = Some v) ∧
    Forall2 (λ ev s, ∃ id a,
               ring !! Z.to_nat (hash (key_str ev) `mod` Z.of_nat n) = Some (id, a) ∧
               s = (Store (key_str ev) ev, a))
            (events self) (sends out) ∧
    (∀ ev, key_str ev = match get ev "EVENT_ID" with
                        | Some key => key
                        | None => str_of_int (hash (str_of_event ev))
                        end) ∧
    (∀ self' i j e1 e2 s1 s2,
       lock self' = false → peers self' = peers self →
       events self !! i = Some e1 → events self' !! j = Some e2 →
       sends out !! i = Some s1 →
       sends (out_of (distribute_events self')) !! j = Some s2 →
       key_str e1 = key_str e2 → s1.2 = s2.2).
Proof.
  intros Hfree Hne ring n.
  pose proof (distribute_events_sends self Hfree Hne) as Hall.
  rewrite distribute_events_run in Hall by done. cbn [out_of] in Hall.
  eexists. split; [by apply distribute_events_run|].
  split_and!; [apply sorted_items_ascending|apply elem_of_sorted_items|done|done|].
  intros self' i j e1 e2 s1 s2 Hfree' Hsame He1 He2 Hs1 Hs2 Hkey.
  pose proof (distribute_events_sends self' Hfree') as Hall'.
  rewrite Hsame in Hall'. specialize (Hall' Hne).
  destruct (Forall2_lookup_lr _ _ _ _ _ _ Hall He1 Hs1) as (id1 & a1 & Hl1 & ->).
  destruct (Forall2_lookup_lr _ _ _ _ _ _ Hall' He2 Hs2) as (id2 & a2 & Hl2 & ->).
  rewrite Hkey in Hl1. simpl. congruence.
Qed.

End assignment_properties.

End manager_properties.

(** ** The node *)
Section peer_properties.
Import peer.

(** C8. A [store] handled with the lock free puts the payload under the key
    in the local store, replacing what was there and touching no other key
    and no other field, then reports it and sends the coordinator a
    [store_ack] with the key and the peer's own identity. *)
Theorem handle_store_inserts (self : Peer) (k : string) (v : event) :
  lock self = false →
  ∃ self',
    handle_store k v self =
      Done () self' [Print (LogStored (peer_id self) k);
                     Sendto (StoreAck (peer_id self) k) (manager_address self)] ∧
    self' = set_data_store <[k := v]> self ∧
    data_store self' !! k = Some v ∧
    (∀ k', k' ≠ k → data_store self' !! k' = data_store self !! k').
Proof.
  intros Hfree. exists (set_data_store <[k := v]> self). split_and!.
  - destruct self; simpl in *; by subst.
  - done.
  - simpl. apply lookup_insert_eq.
  - intros k' Hne. simpl. by apply lookup_insert_ne.
Qed.

(** C10. A peer without successor that stores the key: [query_event] takes
    the local path, where the [found_event] reply is sent to [None]; the call
    raises, nothing is sent and no answer is displayed. At the prompt the
    operator gets the main loop's error line. *)
Theorem query_event_local_raises (self : Peer) (k : string) (v : event) :
  next_peer self = None →
  data_store self !! k = Some v →
  query_event k self = Raised TypeError self [Print LogCheckingLocally] ∧
  console_query k self =
    Done () self [Print LogCheckingLocally; Print (LogMainLoopError TypeError)].
Proof.
  intros Hnext Hk. unfold console_query, try_except, query_event.
  unfold mbind, M_bind, reads, handle_message, handle_find_event. simpl.
  unfold mbind, M_bind, reads. simpl. rewrite Hnext. simpl. rewrite Hk. done.
Qed.

(** *** One hop *)

Lemma handle_find_event_forward (self : Peer) (key : string) addr next :
  data_store self !! key = None → next_peer self = Some next →
  handle_find_event key addr self =
    Done () self [Print (LogForwarding (peer_id self) key next);
                  Sendto (FindEvent key) next].
Proof.
  intros Hk Hnext. unfold handle_find_event, mbind, M_bind, reads. simpl.
  rewrite Hk. simpl. rewrite Hnext. done.
Qed.

Lemma handle_find_event_found (self : Peer) (key : string) (v : event) (addr : endpoint) :
  data_store self !! key = Some v →
  handle_find_event key (Some addr) self = Done () self [Sendto (FoundEvent key v) addr].
Proof.
  intros Hk. unfold handle_find_event, mbind, M_bind, reads. simpl. by rewrite Hk.
Qed.

Lemma ring_ok_spec (nodes : list Peer) :
  ring_ok nodes = true →
  NoDup (p_port <$> nodes) ∧
  ∀ i p, nodes !! i = Some p →
    running p = true ∧
    next_peer p = address_of <$> nodes !! ((i + 1) `mod` length nodes).
Proof.
  unfold ring_ok. intros [Hnd Hall]%andb_prop. split.
  - by apply bool_decide_eq_true in Hnd.
  - intros i p Hi. rewrite forallb_forall in Hall.
    assert (successor_ok nodes (i, p) = true) as Hip.
    { apply Hall, list_elem_of_In, elem_of_enumerate. done. }
    unfold successor_ok in Hip. simpl in Hip.
    apply andb_prop in Hip as [Hrun Hnext].
    split; [done|]. by apply bool_decide_eq_true in Hnext.
Qed.

Lemma ring_successor (nodes : list Peer) i p :
  ring_ok nodes = true → nodes !! i = Some p →
  ∃ q, nodes !! ((i + 1) `mod` length nodes) = Some q ∧ next_peer p = Some (address_of q).
Proof.
  intros [_ Hok]%ring_ok_spec Hi. destruct (Hok i p Hi) as [_ Hnext].
  destruct (ring_successor_exists nodes i) as [q Hq]; [by eapply lookup_lt_Some|].
  exists q. split; [done|]. by rewrite Hnext, Hq.
Qed.

(** In a ring, the peer that listens at a node's address is that node. *)
Lemma ring_listener (nodes : list Peer) i p :
  ring_ok nodes = true → nodes !! i = Some p →
  list_find (listening_at (address_of p)) nodes = Some (i, p).
Proof.
  intros Hok Hi. destruct (ring_ok_spec nodes Hok) as [Hnd Hall].
  apply list_find_Some. split_and!; [done| |].
  - split; [done|]. by destruct (Hall i p Hi).
  - intros j y Hj Hlt [Haddr _]. unfold address_of in Haddr. simplify_eq.
    assert (j = i); [|lia].
    eapply NoDup_lookup; [exact Hnd| |]; rewrite list_lookup_fmap.
    + by rewrite Hj.
    + rewrite Hi. simpl. by f_equal.
Qed.

Lemma run_at_unchanged (nodes : list Peer) i p act o w h :
  nodes !! i = Some p → act p = Done () p o →
  run_at i act (mkNetwork nodes w h) =
    mkNetwork nodes (w ++ outgoing (address_of p) o) (h ++ (pair (address_of p) <$> o)).
Proof.
  intros Hi Hact. unfold run_at. simpl. rewrite Hi, Hact. simpl.
  by rewrite list_insert_id.
Qed.

Lemma step_forward (nodes : list Peer) i p q key s w h :
  ring_ok nodes = true → nodes !! i = Some p →
  nodes !! ((i + 1) `mod` length nodes) = Some q →
  data_store p !! key = None →
  step (mkNetwork nodes (mkDatagram s (address_of p) (FindEvent key) :: w) h) =
    mkNetwork nodes
      (w ++ [mkDatagram (address_of p) (address_of q) (FindEvent key)])
      (h ++ [(address_of p, Print (LogForwarding (peer_id p) key (address_of q)));
             (address_of p, Sendto (FindEvent key) (address_of q))]).
Proof.
  intros Hok Hi Hq Hk. unfold step. cbn [wire peer.nodes history dst src payload].
  rewrite (ring_listener nodes i p) by done.
  destruct (ring_successor nodes i p Hok Hi) as (q' & Hq' & Hnext).
  assert (q' = q) as -> by congruence.
  erewrite run_at_unchanged; [|done|]; last first.
  { unfold listen_once, try_except. cbn [handle_message].
    by erewrite handle_find_event_forward. }
  done.
Qed.

Lemma step_found (nodes : list Peer) i p key v s w h :
  ring_ok nodes = true → nodes !! i = Some p →
  data_store p !! key = Some v →
  step (mkNetwork nodes (mkDatagram s (address_of p) (FindEvent key) :: w) h) =
    mkNetwork nodes
      (w ++ [mkDatagram (address_of p) s (FoundEvent key v)])
      (h ++ [(address_of p, Sendto (FoundEvent key v) s)]).
Proof.
  intros Hok Hi Hk. unfold step. cbn [wire peer.nodes history dst src payload].
  rewrite (ring_listener nodes i p) by done.
  erewrite run_at_unchanged; [|done|]; last first.
  { unfold listen_once, try_except. cbn [handle_message].
    by erewrite handle_find_event_found. }
  done.
Qed.

Lemma step_display (nodes : list Peer) i p key v s w h :
  ring_ok nodes = true → nodes !! i = Some p →
  step (mkNetwork nodes (mkDatagram s (address_of p) (FoundEvent key v) :: w) h) =
    mkNetwork nodes w (h ++ [(address_of p, Print (LogFound (peer_id p) key v))]).
Proof.
  intros Hok Hi. unfold step. cbn [wire peer.nodes history dst src payload].
  rewrite (ring_listener nodes i p) by done.
  erewrite run_at_unchanged; [|done|]; last first.
  { unfold listen_once, try_except. cbn [handle_message]. done. }
  simpl. by rewrite app_nil_r.
Qed.

Lemma query_sends (nodes : list Peer) r p q key w h :
  ring_ok nodes = true → nodes !! r = Some p →
  nodes !! ((r + 1) `mod` length nodes) = Some q →
  query r key (mkNetwork nodes w h) =
    mkNetwork nodes
      (w ++ [mkDatagram (address_of p) (address_of q) (FindEvent key)])
      (h ++ [(address_of p, Print (LogSendingQuery (peer_id p) key (address_of q)));
             (address_of p, Sendto (FindEvent key) (address_of q))]).
Proof.
  intros Hok Hr Hq. unfold query.
  destruct (ring_successor nodes r p Hok Hr) as (q' & Hq' & Hnext).
  assert (q' = q) as -> by congruence.
  erewrite run_at_unchanged; [|done|]; last first.
  { unfold console_query, try_except, query_event, mbind, M_bind, reads. simpl.
    by rewrite Hnext. }
  done.
Qed.

(** *** A lookup on its way round the ring *)

Lemma forwards_app h1 h2 : forwards (h1 ++ h2) = forwards h1 ++ forwards h2.
Proof. apply omap_app. Qed.

Lemma answers_app h1 h2 : answers (h1 ++ h2) = answers h1 ++ answers h2.
Proof. apply omap_app. Qed.

Lemma displayed_app h1 h2 : displayed (h1 ++ h2) = displayed h1 ++ displayed h2.
Proof. apply omap_app. Qed.

Lemma steps_S k net : steps (S k) net = step (steps k net).
Proof. done. Qed.

(** As long as the peers it passes do not store the key, the lookup is one
    [find_event] datagram on the wire, [k] hops beyond the first send, and
    nobody has answered. *)
Lemma lookup_travels (nodes : list Peer) r key k :
  ring_ok nodes = true → r < length nodes →
  (∀ j p, 1 ≤ j ≤ k → nodes !! ((r + j) `mod` length nodes) = Some p →
          data_store p !! key = None) →
  ∃ p q h,
    nodes !! ((r + k) `mod` length nodes) = Some p ∧
    nodes !! ((r + S k) `mod` length nodes) = Some q ∧
    steps k (query r key (mkNetwork nodes [] [])) =
      mkNetwork nodes [mkDatagram (address_of p) (address_of q) (FindEvent key)] h ∧
    length (forwards h) = k ∧ answers h = [] ∧ displayed h = [].
Proof.
  intros Hok Hr. induction k as [|k IH]; intros Habs.
  - destruct (lookup_lt_is_Some_2 nodes r Hr) as [p Hp].
    destruct (ring_successor nodes r p Hok Hp) as (q & Hq & _).
    exists p, q. eexists. split_and!.
    + by rewrite Nat.add_0_r, Nat.mod_small.
    + by replace (r + 1) with (r + 1) in Hq.
    + simpl. by erewrite query_sends.
    + done.
    + done.
    + done.
  - destruct IH as (p & q & h & Hp & Hq & Hsteps & Hf & Ha & Hd).
    { intros j p' Hj. apply Habs. lia. }
    destruct (ring_successor nodes _ q Hok Hq) as (q' & Hq' & _).
    rewrite Nat.Div0.add_mod_idemp_l in Hq'.
    replace (r + S k + 1) with (r + S (S k)) in Hq' by lia.
    exists q, q'. eexists. split_and!; [done|done| | | |].
    + rewrite steps_S, Hsteps.
      erewrite step_forward; [done|done|done| |].
      * rewrite Nat.Div0.add_mod_idemp_l.
        by replace (r + S k + 1) with (r + S (S k)) by lia.
      * eapply Habs; [|done]. lia.
    + rewrite forwards_app, length_app, Hf. simpl. lia.
    + by rewrite answers_app, Ha.
    + by rewrite displayed_app, Hd.
Qed.

(** The first position with a property, counting from 1. *)
Lemma least_position (P : nat → Prop) (m : nat) :
  (∀ j, P j ∨ ¬ P j) →
  (∃ d, 1 ≤ d ≤ m ∧ P d ∧ ∀ j, 1 ≤ j < d → ¬ P j) ∨ (∀ j, 1 ≤ j ≤ m → ¬ P j).
Proof.
  intros Hdec. induction m as [|m [(d & Hd & HP & Hleast)|Hnone]].
  - right. intros j ?. lia.
  - left. exists d. split_and!; [lia|lia|done|done].
  - destruct (Hdec (S m)) as [HP|HP].
    + left. exists (S m). split_and!; [lia|lia|done|]. intros j ?. apply Hnone. lia.
    + right. intros j Hj. destruct (decide (j = S m)) as [->|?]; [done|].
      apply Hnone. lia.
Qed.

(** Going round from position [r], the first peer that stores the key. *)
Lemma first_holder (nodes : list Peer) r key :
  r < length nodes →
  (∃ x px v, nodes !! x = Some px ∧ data_store px !! key = Some v) →
  ∃ d holder v,
    1 ≤ d ≤ length nodes ∧
    nodes !! ((r + d) `mod` length nodes) = Some holder ∧
    data_store holder !! key = Some v ∧
    ∀ j p, 1 ≤ j < d → nodes !! ((r + j) `mod` length nodes) = Some p →
           data_store p !! key = None.
Proof.
  intros Hr (x & px & v & Hx & Hv).
  set (n := length nodes) in *.
  set (P := λ j, ∃ p w, nodes !! ((r + j) `mod` n) = Some p ∧ data_store p !! key = Some w).
  assert (∀ j, P j ∨ ¬ P j) as Hdec.
  { intros j. unfold P. destruct (nodes !! ((r + j) `mod` n)) as [p|] eqn:Hp.
    - destruct (data_store p !! key) as [w|] eqn:Hw.
      + left. by exists p, w.
      + right. intros (p' & w & ? & ?). by simplify_eq.
    - right. by intros (p' & w & ? & ?). }
  assert (x < n) as Hxn by by eapply lookup_lt_Some.
  destruct (least_position P n Hdec) as [(d & Hd & (holder & w & Hh & Hw) & Hleast)|Hnone].
  - exists d, holder, w. split_and!; [lia|lia|done|done|].
    intros j p Hj Hp. destruct (data_store p !! key) as [w'|] eqn:Hw'; [|done].
    destruct (Hleast j Hj). by exists p, w'.
  - exfalso. destruct (decide (r < x)) as [Hlt|Hge].
    + apply (Hnone (x - r)); [lia|]. exists px, v. split; [|done].
      replace (r + (x - r)) with x by lia. by rewrite Nat.mod_small.
    + apply (Hnone (x + n - r)); [lia|]. exists px, v. split; [|done].
      replace (r + (x + n - r)) with (x + 1 * n) by lia.
      by rewrite Nat.Div0.mod_add, Nat.mod_small.
Qed.

Lemma ring_offset_fixed r d n :
  r < n → 1 ≤ d ≤ n → (r + (d - 1)) `mod` n = r ↔ d = 1.
Proof.
  intros Hr Hd. split; [|intros ->; by rewrite Nat.add_0_r, Nat.mod_small].
  intros Hmod. destruct (decide (r + (d - 1) < n)) as [Hlt|Hge].
  - rewrite Nat.mod_small in Hmod by done. lia.
  - replace (r + (d - 1)) with ((r + (d - 1) - n) + 1 * n) in Hmod by lia.
    rewrite Nat.Div0.mod_add, Nat.mod_small in Hmod by lia. lia.
Qed.

(** C9. In a ring where no peer stores the key, however many datagrams have
    been delivered since the operator at position [r] asked for it, the peers
    are as they were, the same [find_event] message is on the wire again, on
    its way from the peer [k] positions after [r] to that peer's successor,
    it was forwarded [k] times, and no peer has answered or displayed
    anything. *)
Theorem absent_key_circulates (nodes : list Peer) (r : nat) (key : string) (k : nat) :
  ring_ok nodes = true →
  r < length nodes →
  (∀ p, p ∈ nodes → data_store p !! key = None) →
  let net := steps k (query r key (mkNetwork nodes [] [])) in
  peer.nodes net = nodes ∧
  (∃ p q,
     nodes !! ((r + k) `mod` length nodes) = Some p ∧
     nodes !! ((r + S k) `mod` length nodes) = Some q ∧
     next_peer p = Some (address_of q) ∧
     wire net = [mkDatagram (address_of p) (address_of q) (FindEvent key)]) ∧
  length (forwards (history net)) = k ∧
  answers (history net) = [] ∧
  displayed (history net) = [].
Proof.
  intros Hok Hr Habs net.
  destruct (lookup_travels nodes r key k Hok Hr) as (p & q & h & Hp & Hq & Hsteps & Hf & Ha & Hd).
  { intros j p _ Hp. apply Habs. by eapply list_elem_of_lookup_2. }
  subst net. rewrite Hsteps. simpl. split_and!; [done| |done..].
  exists p, q. split_and!; [done|done| |done].
  destruct (ring_successor nodes _ p Hok Hp) as (q' & Hq' & Hnext).
  rewrite Nat.Div0.add_mod_idemp_l in Hq'.
  replace (r + k + 1) with (r + S k) in Hq' by lia. congruence.
Qed.

(** C3, as the code has it. In a ring where some peer stores the key, a
    lookup from position [r] reaches the first peer after [r] that stores it,
    [d] positions on, after [d - 1] forwarding hops, at most [n - 1]. That
    peer sends one [found_event] with its stored payload to the address the
    datagram came from: the peer one position before it, which displays the
    answer. That peer is the one that asked exactly when the holder is the
    successor of the one that asked. *)
Theorem lookup_answer_goes_to_last_sender (nodes : list Peer) (r : nat) (key : string) :
  ring_ok nodes = true →
  r < length nodes →
  (∃ x px v, nodes !! x = Some px ∧ data_store px !! key = Some v) →
  ∃ d holder prev v,
    1 ≤ d ≤ length nodes ∧
    nodes !! ((r + d) `mod` length nodes) = Some holder ∧
    nodes !! ((r + (d - 1)) `mod` length nodes) = Some prev ∧
    data_store holder !! key = Some v ∧
    let sent := steps d (query r key (mkNetwork nodes [] [])) in
    let shown := step sent in
    wire sent = [mkDatagram (address_of holder) (address_of prev) (FoundEvent key v)] ∧
    length (forwards (history sent)) = d - 1 ∧
    d - 1 ≤ length nodes - 1 ∧
    peer.nodes shown = nodes ∧
    wire shown = [] ∧
    answers (history shown) = [(address_of holder, key, v, address_of prev)] ∧
    displayed (history shown) = [(address_of prev, key, v)] ∧
    ((r + (d - 1)) `mod` length nodes = r ↔ d = 1).
Proof.
  intros Hok Hr Hstored.
  destruct (first_holder nodes r key Hr Hstored) as (d & holder & v & Hd & Hh & Hv & Hfirst).
  destruct (lookup_travels nodes r key (d - 1) Hok Hr)
    as (p & q & h & Hp & Hq & Hsteps & Hf & Ha & Hdisp).
  { intros j p Hj. apply Hfirst. lia. }
  replace (S (d - 1)) with d in Hq by lia.
  assert (q = holder) as -> by congruence.
  exists d, holder, p, v. split_and!; [lia|lia|done|done|done|].
  cbv zeta.
  assert (steps d (query r key (mkNetwork nodes [] [])) =
    mkNetwork nodes [mkDatagram (address_of holder) (address_of p) (FoundEvent key v)]
      (h ++ [(address_of holder, Sendto (FoundEvent key v) (address_of p))])) as ->.
  { replace d with (S (d - 1)) by lia. rewrite steps_S, Hsteps.
    by erewrite step_found. }
  erewrite step_display; [|done|exact Hp].
  cbn [wire history peer.nodes]. split_and!; [done| |lia|done|done| | |].
  - rewrite forwards_app, length_app, Hf. simpl. lia.
  - rewrite !answers_app, Ha. done.
  - rewrite !displayed_app, Hdisp. done.
  - by apply ring_offset_fixed.
Qed.

(** Once the wire is empty nothing happens any more. *)
Lemma steps_quiescent k net : wire net = [] → steps k net = net.
Proof.
  intros Hw. induction k as [|k IH]; [done|].
  rewrite steps_S, IH. unfold step. by rewrite Hw.
Qed.

End peer_properties.

(** ** The properties on the concrete registries and rings *)

(** The registry of three peers: the last peer in ascending order is told
    that the first one is its successor. *)
Lemma update_ring_successors_witness :
  manager.lock examples.manager3 = false ∧
  ∃ out,
    manager.update_ring examples.manager3 = Done () examples.manager3 out ∧
    length (sends out) = 3.
Proof.
  split; [reflexivity|].
  destruct (update_ring_successors examples.manager3 eq_refl)
    as (out & Hrun & _ & _ & _ & Hhops & _).
  exists out. split; [exact Hrun|].
  destruct Hhops as [Hlen _]; [vm_compute; lia|].
  exact Hlen.
Defined.

Lemma registry3_non_empty : manager.peers examples.manager3 ≠ ∅.
Proof.
  intros Heq. apply (f_equal (λ m : gmap Z (string * Z), m !! 0%Z)) in Heq.
  vm_compute in Heq. discriminate Heq.
Qed.

Lemma distribute_events_owner_witness :
  manager.lock examples.manager3 = false ∧
  manager.peers examples.manager3 ≠ ∅ ∧
  ∃ out,
    manager.distribute_events examples.hash0 examples.str_of_event0 examples.str_of_int0
      examples.manager3 = Done () examples.manager3 out.
Proof.
  split; [reflexivity|]. split; [exact registry3_non_empty|].
  destruct (distribute_events_owner examples.hash0 examples.str_of_event0
              examples.str_of_int0 examples.manager3 eq_refl registry3_non_empty)
    as (out & Hrun & _).
  exists out. exact Hrun.
Defined.

Lemma ring3_stores_EVT1 :
  ∃ x px v, examples.ring3 !! x = Some px ∧ peer.data_store px !! "EVT1"%string = Some v.
Proof. exists 2. eexists. eexists. split; reflexivity. Qed.

Lemma lookup_answer_goes_to_last_sender_witness :
  peer.ring_ok examples.ring3 = true ∧
  0 < length examples.ring3 ∧
  (∃ x px v, examples.ring3 !! x = Some px ∧ peer.data_store px !! "EVT1"%string = Some v) ∧
  ∃ d, 1 ≤ d ≤ 3 ∧
    length (peer.forwards (peer.history
      (peer.steps d (peer.query 0 "EVT1" examples.net3)))) = d - 1.
Proof.
  split; [vm_compute; reflexivity|].
  split; [exact (Nat.lt_0_succ 2)|]. split; [exact ring3_stores_EVT1|].
  pose proof (lookup_answer_goes_to_last_sender examples.ring3 0 "EVT1"
                eq_refl (Nat.lt_0_succ 2) ring3_stores_EVT1) as H.
  destruct H as (d & holder & prev & v & Hd & _ & _ & _ & H).
  cbv zeta in H. destruct H as (_ & Hf & _).
  exists d. split; [exact Hd|exact Hf].
Defined.

(** The ring of three peers, the key on the third, the question from the
    first: the answer goes from the third peer to the second, which displays
    it; then the wire is empty for good. The first peer, which asked, is sent
    nothing and displays nothing. *)
Lemma found_event_misses_requester :
  peer.ring_ok examples.ring3 = true ∧
  peer.wire (peer.steps 4 (peer.query 0 "EVT1" examples.net3)) = [] ∧
  (∀ k, 4 ≤ k →
     peer.steps k (peer.query 0 "EVT1" examples.net3) =
     peer.steps 4 (peer.query 0 "EVT1" examples.net3)) ∧
  peer.answers (peer.history (peer.steps 4 (peer.query 0 "EVT1" examples.net3))) =
    [(("127.0.0.1", 9002%Z), "EVT1", examples.evt1, ("127.0.0.1", 9001%Z))]%string ∧
  peer.displayed (peer.history (peer.steps 4 (peer.query 0 "EVT1" examples.net3))) =
    [(("127.0.0.1", 9001%Z), "EVT1", examples.evt1)]%string.
Proof.
  split_and!; try (vm_compute; reflexivity).
  intros k Hk. replace k with ((k - 4) + 4) by lia.
  unfold peer.steps at 1. rewrite Nat.iter_add.
  apply steps_quiescent. vm_compute. reflexivity.
Qed.

Lemma issued_identities_fresh_witness :
  NoDup (manager.issued (out_of (manager.run
    [(Register 9000, examples.A); (Leave 7, examples.A); (Register 9001, examples.B)]
    (manager.init [])))).
Proof.
  exact (proj1 (proj2 (issued_identities_fresh []
    [(Register 9000, examples.A); (Leave 7, examples.A); (Register 9001, examples.B)]))).
Defined.

(** A fourth peer registers with the registry of three: it is answered its
    identity and that is all the coordinator sends, although a rebuild of the
    new registry would send four successor updates. *)
Lemma register_sends_no_successor_update :
  sends (out_of (manager.register_peer 9003 examples.D examples.manager3)) =
    [(SetId 3, examples.D)] ∧
  sends (out_of (manager.update_ring
    (state_of (manager.register_peer 9003 examples.D examples.manager3)))) =
    [(SetNextPeer examples.B, examples.A); (SetNextPeer examples.C, examples.B);
     (SetNextPeer ("D"%string, 9003%Z), examples.C);
     (SetNextPeer examples.A, ("D"%string, 9003%Z))].
Proof. split; vm_compute; reflexivity. Qed.

Lemma membership_change_effects_witness :
  manager.lock examples.manager3 = false ∧
  length (sends (out_of (manager.update_ring examples.manager3))) =
    size (manager.peers examples.manager3).
Proof.
  split; [reflexivity|].
  exact (proj2 (proj2 (proj2 (membership_change_effects examples.manager3 eq_refl)))).
Defined.

Lemma distribute_events_refused_witness :
  manager.peers examples.manager0 = ∅ ∧
  sends (out_of (manager.distribute_events examples.hash0 examples.str_of_event0
    examples.str_of_int0 examples.manager0)) = [].
Proof.
  split; [reflexivity|].
  exact (proj1 (proj2 (distribute_events_refused examples.hash0 examples.str_of_event0
    examples.str_of_int0 examples.manager0 eq_refl))).
Defined.

Lemma remove_peer_idempotent_witness :
  manager.lock examples.manager3 = false ∧
  manager.peers (state_of (manager.run
    [(Leave 1, examples.B); (Leave 1, examples.B)] examples.manager3)) =
  manager.peers (state_of (manager.run [(Leave 1, examples.B)] examples.manager3)).
Proof.
  split; [reflexivity|].
  exact (proj2 (proj2 (remove_peer_idempotent examples.manager3 1 examples.B examples.B
    eq_refl))).
Defined.

Lemma handle_store_inserts_witness :
  peer.lock examples.lonely = false ∧
  ∃ self',
    peer.data_store self' !! "EVT2"%string = Some examples.evt2 ∧
    peer.data_store self' !! "EVT1"%string = Some examples.evt1.
Proof.
  split; [reflexivity|].
  destruct (handle_store_inserts examples.lonely "EVT2" examples.evt2 eq_refl)
    as (self' & _ & _ & Hnew & Hold).
  exists self'. split; [exact Hnew|].
  rewrite Hold by discriminate. reflexivity.
Defined.

Lemma ring3_lacks_NOPE p : p ∈ examples.ring3 → peer.data_store p !! "NOPE"%string = None.
Proof.
  unfold examples.ring3. rewrite !elem_of_cons, elem_of_nil.
  intros [->|[->|[->|[]]]]; reflexivity.
Qed.

Lemma absent_key_circulates_witness :
  peer.ring_ok examples.ring3 = true ∧
  0 < length examples.ring3 ∧
  (∀ p, p ∈ examples.ring3 → peer.data_store p !! "NOPE"%string = None) ∧
  peer.answers (peer.history (peer.steps 7 (peer.query 0 "NOPE" examples.net3))) = [].
Proof.
  split; [vm_compute; reflexivity|].
  split; [exact (Nat.lt_0_succ 2)|]. split; [exact ring3_lacks_NOPE|].
  pose proof (absent_key_circulates examples.ring3 0 "NOPE" 7
                eq_refl (Nat.lt_0_succ 2) ring3_lacks_NOPE) as H.
  cbv zeta in H. exact (proj1 (proj2 (proj2 (proj2 H)))).
Defined.

Lemma query_event_local_raises_witness :
  peer.next_peer examples.lonely = None ∧
  peer.data_store examples.lonely !! "EVT1"%string = Some examples.evt1 ∧
  peer.query_event "EVT1" examples.lonely =
    Raised TypeError examples.lonely [Print LogCheckingLocally].
Proof.
  split; [reflexivity|]. split; [reflexivity|].
  exact (proj1 (query_event_local_raises examples.lonely "EVT1" examples.evt1
    eq_refl eq_refl)).
Defined.

(** * Further properties of the coordinator *)
Section manager_operations.
Import manager.
Variable hash : string → Z.
Variable str_of_event : event → string.
Variable str_of_int : Z → string.

Abbreviation key_str := (key_str hash str_of_event str_of_int).
Abbreviation distribute_events := (distribute_events hash str_of_event str_of_int).
Abbreviation console_command := (console_command hash str_of_event str_of_int).

(** What [teardown] does when it gets the lock: the whole run. *)
Lemma teardown_run (self : Manager) :
  lock self = false →
  teardown self = Done () (set_running false self)
    ((sorted_items (peers self) ≫= λ kv, [Sendto Teardown kv.2]) ++ [Print LogShuttingDown]).
Proof.
  intros Hfree. unfold manager.teardown.
  erewrite bind_done; last first.
  { rewrite with_lock_free by done.
    erewrite bind_done; last done. rewrite after_nil.
    erewrite for_each_effects with (f := λ kv : Z * (string * Z), [Sendto Teardown kv.2]).
    - reflexivity.
    - by intros [peer_id [address port]] _. }
  destruct self; simpl in *; by subst.
Qed.

Lemma teardown_held (self : Manager) :
  lock self = true → teardown self = Blocked self [].
Proof.
  intros Hheld. unfold manager.teardown.
  erewrite bind_blocked; [done|]. by apply with_lock_held.
Qed.

Lemma sends_teardown (l : list (Z * (string * Z))) :
  sends ((l ≫= λ kv, [Sendto Teardown kv.2]) ++ [Print LogShuttingDown]) =
    (λ kv, (Teardown, kv.2)) <$> l.
Proof.
  rewrite sends_app. simpl. rewrite app_nil_r.
  induction l as [|kv l IH]; [done|]. csimpl. by rewrite IH.
Qed.

(** X1. A teardown that gets the lock sends one [teardown] datagram to the
    address of every registered peer and to nobody else, clears the
    coordinator's [running] flag and changes nothing else. *)
Theorem teardown_reaches_every_peer (self : Manager) :
  lock self = false →
  ∃ out,
    teardown self = Done () (set_running false self) out ∧
    sends out ≡ₚ (λ kv, (Teardown, kv.2)) <$> map_to_list (peers self) ∧
    length (sends out) = size (peers self) ∧
    (∀ m a, (m, a) ∈ sends out ↔ m = Teardown ∧ ∃ id, peers self !! id = Some a).
Proof.
  intros Hfree. eexists. split; [by apply teardown_run|].
  rewrite sends_teardown. split_and!.
  - by rewrite sorted_items_perm.
  - by rewrite length_fmap, length_sorted_items.
  - intros m a. rewrite list_elem_of_fmap. split.
    + intros ([id a'] & [= -> ->] & Hin%elem_of_sorted_items). split; [done|]. by exists id.
    + intros [-> [id Hid]]. exists (id, a). split; [done|]. by apply elem_of_sorted_items.
Qed.

(** X2. Removing a registered peer stops the coordinator. [remove_peer] takes
    the entry out and prints, then waits for ever inside [update_ring] for the
    lock it holds itself: no successor update is sent, the listener handles
    none of the datagrams that follow, and from then on every method that
    takes the lock, and every console command that calls one, blocks at once
    without sending anything. *)
Theorem removal_blocks_coordinator (self : Manager) (peer_id : Z) :
  lock self = false →
  is_Some (peers self !! peer_id) →
  let stuck := set_lock true (set_peers (delete peer_id) self) in
  remove_peer peer_id self = Blocked stuck [Print (LogRemoved peer_id)] ∧
  (∀ addr inbox, running self = true →
     run ((Leave peer_id, addr) :: inbox) self = Blocked stuck [Print (LogRemoved peer_id)]) ∧
  update_ring stuck = Blocked stuck [] ∧
  (∀ port addr, register_peer port addr stuck = Blocked stuck []) ∧
  (∀ id, remove_peer id stuck = Blocked stuck []) ∧
  distribute_events stuck = Blocked stuck [] ∧
  teardown stuck = Blocked stuck [] ∧
  (∀ cmd, cmd = "setup"%string ∨ cmd = "distribute"%string ∨ cmd = "teardown"%string →
     console_command cmd stuck = Blocked stuck []).
Proof.
  intros Hfree Hin stuck.
  assert (lock stuck = true) as Hheld by done.
  assert (update_ring stuck = Blocked stuck []) as Hring.
  { unfold update_ring. erewrite bind_blocked; [done|]. by apply with_lock_held. }
  split_and!.
  - by apply remove_peer_present_run.
  - intros addr inbox Hrun. by apply run_leave_present.
  - done.
  - intros port addr. by apply register_peer_held.
  - intros id. by apply remove_peer_held.
  - by apply distribute_events_held.
  - by apply teardown_held.
  - intros cmd Hcmd. unfold manager.console_command, try_except.
    destruct Hcmd as [-> | [-> | ->]].
    + rewrite decide_True by done. by rewrite Hring.
    + rewrite decide_False, decide_True by done. by rewrite distribute_events_held.
    + rewrite !decide_False, decide_True by done. by rewrite teardown_held.
Qed.

(** X3. Whatever datagram the coordinator handles, the only thing it ever
    sends in reply is the [set_id] for a [register], to the address the
    [register] came from; a [store_ack] or an unknown command changes
    nothing. *)
Theorem handle_message_replies (message : message) (addr : endpoint) (self : Manager) :
  let r := handle_message message addr self in
  (sends (out_of r) = [] ∨
   ∃ port, message = Register port ∧ sends (out_of r) = [(SetId (next_peer_id self), addr)]) ∧
  ((∀ id, message ≠ Leave id) → (∀ port, message ≠ Register port) →
   r = Done () self (out_of r)).
Proof.
  intros r. subst r. destruct message; simpl;
    try (split; [by left|by intros]).
  - split; [|intros _ Hne; by destruct (Hne _ eq_refl)].
    destruct (lock self) eqn:Hlock.
    + rewrite register_peer_held by done. by left.
    + rewrite register_peer_run by done. right. by eexists.
  - split; [|intros Hne _; by destruct (Hne _ eq_refl)].
    left. destruct (remove_peer_state peer_id self) as (_ & Hissued & _).
    destruct (lock self) eqn:Hlock.
    + by rewrite remove_peer_held.
    + destruct (peers self !! peer_id) eqn:Hin.
      * by rewrite remove_peer_present_run.
      * by rewrite remove_peer_absent.
Qed.

Lemma sorted_items_singleton {V} (id : Z) (a : V) :
  sorted_items ({[id := a]} : gmap Z V) = [(id, a)].
Proof.
  apply Permutation_singleton_r. by rewrite sorted_items_perm, map_to_list_singleton.
Qed.

(** X4. With exactly one peer registered, every loaded row is sent to that
    peer, whatever its key hashes to. *)
Theorem single_peer_gets_every_row (self : Manager) (id : Z) (a : endpoint) :
  lock self = false →
  peers self = {[id := a]} →
  sends (out_of (distribute_events self)) =
    (λ ev, (Store (key_str ev) ev, a)) <$> events self.
Proof.
  intros Hfree Hone.
  assert (peers self ≠ ∅) as Hne.
  { rewrite Hone. apply insert_non_empty. }
  pose proof (distribute_events_sends hash str_of_event str_of_int self Hfree Hne) as Hall.
  induction Hall as [|ev s evs ss (id' & a' & Hl & ->) _ IH]; [done|].
  csimpl. rewrite IH. f_equal. f_equal.
  rewrite Hone, sorted_items_singleton in Hl.
  simpl in Hl. rewrite Z.mod_1_r in Hl. simpl in Hl. by simplify_eq.
Qed.

(** X15. The coordinator stops in one way only. With the lock free, every
    console command returns with the lock free again and leaves the registry
    and the counter as they were, and every datagram is handled to the end
    with the lock free again, except a [leave] for a registered identity. *)
Theorem coordinator_blocks_only_on_leave (self : Manager) :
  lock self = false →
  (∀ cmd, ∃ s' out,
     console_command cmd self = Done () s' out ∧ lock s' = false ∧
     peers s' = peers self ∧ next_peer_id s' = next_peer_id self) ∧
  (∀ message addr,
     (∃ s' out, handle_message message addr self = Done () s' out ∧ lock s' = false) ∨
     (∃ id, message = Leave id ∧ is_Some (peers self !! id))).
Proof.
  intros Hfree. split.
  - intros cmd. unfold manager.console_command, try_except.
    destruct (decide (cmd = "setup"%string)) as [_|_].
    { rewrite update_ring_run by done. by eexists _, _. }
    destruct (decide (cmd = "distribute"%string)) as [_|_].
    { destruct (decide (peers self = ∅)) as [Hempty|Hne].
      - rewrite distribute_events_empty by done. by eexists _, _.
      - rewrite distribute_events_run by done. by eexists _, _. }
    destruct (decide (cmd = "teardown"%string)) as [_|_].
    { rewrite teardown_run by done. by eexists _, _. }
    by eexists _, _.
  - intros message addr.
    destruct message; cbn [handle_message]; try (left; by eexists _, _).
    + left. rewrite register_peer_run by done. by eexists _, _.
    + destruct (peers self !! peer_id) eqn:Hin.
      * right. exists peer_id. by split.
      * left. rewrite remove_peer_absent by done. by eexists _, _.
Qed.

End manager_operations.

Section manager_registry.
Import manager.

Lemma run_register port addr inbox (self : Manager) :
  running self = true → lock self = false →
  run ((Register port, addr) :: inbox) self =
    after [Print (LogRegistered (next_peer_id self) addr.1 port);
           Sendto (SetId (next_peer_id self)) addr]
      (run inbox
         (mkManager (<[next_peer_id self := (addr.1, port)]> (peers self))
                    (next_peer_id self + 1) (running self) (events self) false)).
Proof.
  intros Hrun Hfree. rewrite run_cons, Hrun. unfold try_except.
  cbn [handle_message]. rewrite register_peer_run by done. by rewrite Hrun.
Qed.

(** The listener handling nothing but registrations, from any state whose
    registered identities are below the counter. *)
Lemma run_registers (regs : list (Z * (string * Z))) (self : Manager) :
  running self = true → lock self = false →
  (∀ id, is_Some (peers self !! id) → (id < next_peer_id self)%Z) →
  ∃ s' out,
    run ((λ pa, (Register pa.1, pa.2)) <$> regs) self = Done () s' out ∧
    next_peer_id s' = (next_peer_id self + Z.of_nat (length regs))%Z ∧
    size (peers s') = size (peers self) + length regs ∧
    sends out = imap (λ i pa, (SetId (next_peer_id self + Z.of_nat i)%Z, pa.2)) regs ∧
    (∀ i pa, regs !! i = Some pa →
       peers s' !! (next_peer_id self + Z.of_nat i)%Z = Some (pa.2.1, pa.1)) ∧
    (∀ id, (id < next_peer_id self)%Z → peers s' !! id = peers self !! id).
Proof.
  revert self. induction regs as [|[port addr] regs IH]; intros self Hrun Hfree Hinv.
  { exists self, []. simpl. split_and!; [done|lia|lia|done|done|done]. }
  destruct (IH (mkManager (<[next_peer_id self := (addr.1, port)]> (peers self))
                  (next_peer_id self + 1) (running self) (events self) false))
    as (s' & out & Hr & Hn & Hsize & Hsends & Hnew & Hold); [done|done|..].
  { simpl. intros id [Hid|[_ Hid]]%lookup_insert_is_Some; [lia|].
    specialize (Hinv id Hid). lia. }
  simpl in Hn, Hsize, Hsends, Hnew, Hold.
  assert (peers self !! next_peer_id self = None) as Hfresh.
  { destruct (peers self !! next_peer_id self) eqn:Hl; [|done].
    assert (next_peer_id self < next_peer_id self)%Z; [|lia]. apply Hinv. by eexists. }
  eexists s', _. rewrite fmap_cons. cbn [fst snd].
  rewrite run_register, Hr by done. cbn [after length]. split_and!.
  - done.
  - lia.
  - rewrite Hsize, map_size_insert_None by done. lia.
  - rewrite sends_app. cbn [sends omap app]. rewrite Hsends. simpl.
    f_equal; [by rewrite Z.add_0_r|].
    apply imap_ext. intros i pa _. simpl. do 2 f_equal. lia.
  - intros [|i] pa Hpa; simplify_eq/=.
    + rewrite Z.add_0_r, Hold by lia. apply lookup_insert_eq.
    + rewrite <- (Hnew i pa Hpa). f_equal. lia.
  - intros id Hid. rewrite Hold by lia. apply lookup_insert_ne. lia.
Qed.

(** X5. The coordinator starts, and only [register] datagrams arrive: the
    [i]-th one is answered [set_id i] at the address it came from, and the
    registry ends up with exactly one record per datagram, identity [i] for
    the [i]-th, made of the IP address the datagram came from and the port
    the datagram announces (not the port it came from). *)
Theorem registrations_recorded (evs : list event) (regs : list (Z * endpoint)) :
  let r := run ((λ pa, (Register pa.1, pa.2)) <$> regs) (init evs) in
  returned r = true ∧
  next_peer_id (state_of r) = Z.of_nat (length regs) ∧
  size (peers (state_of r)) = length regs ∧
  length (sends (out_of r)) = length regs ∧
  ∀ i port addr, regs !! i = Some (port, addr) →
    peers (state_of r) !! Z.of_nat i = Some (addr.1, port) ∧
    sends (out_of r) !! i = Some (SetId (Z.of_nat i), addr).
Proof.
  intros r. subst r.
  destruct (run_registers regs (init evs)) as (s' & out & -> & Hn & Hsize & Hsends & Hnew & _);
    [done|done|..].
  { intros id. simpl. rewrite lookup_empty. by intros []. }
  simpl in *. split_and!; [done|lia|by rewrite Hsize, map_size_empty| |].
  - by rewrite Hsends, length_imap.
  - intros i port addr Hi. split.
    + specialize (Hnew i _ Hi). by rewrite Z.add_0_l in Hnew.
    + rewrite Hsends, list_lookup_imap, Hi. simpl. by rewrite Z.add_0_l.
Qed.

(** X6. In every state the coordinator reaches from its start, a
    registration finds its identity unused: the registry keeps all the
    records it had and gains exactly one. *)
Theorem register_never_overwrites (evs : list event) (inbox : list (message * endpoint))
    (port : Z) (addr : endpoint) :
  let self := state_of (run inbox (init evs)) in
  lock self = false →
  let self' := state_of (register_peer port addr self) in
  peers self !! next_peer_id self = None ∧
  peers self ⊆ peers self' ∧
  size (peers self') = S (size (peers self)) ∧
  peers self' !! next_peer_id self = Some (addr.1, port).
Proof.
  intros self Hfree self'.
  assert (peers self !! next_peer_id self = None) as Hfresh.
  { destruct (run_issues inbox (init evs)) as (Hi & Hn & Hp). cbv zeta in Hi, Hn, Hp.
    fold self in Hn, Hp. simpl in Hi, Hn.
    destruct (peers self !! next_peer_id self) eqn:Hl; [|done].
    destruct (Hp (next_peer_id self)) as [Hin|Hin]; [by eexists| |].
    - simpl in Hin. rewrite lookup_empty in Hin. by destruct Hin.
    - rewrite Hi in Hin. apply list_elem_of_fmap in Hin as (i & Heq & Hin).
      apply elem_of_seq in Hin. lia. }
  subst self'. rewrite register_peer_run by done. simpl. split_and!.
  - done.
  - by apply insert_subseteq.
  - by apply map_size_insert_None.
  - apply lookup_insert_eq.
Qed.

End manager_registry.

(** * Further properties of the node *)
Section peer_operations.
Import peer.

Lemma handle_store_run (self : Peer) (k : string) (v : event) :
  lock self = false →
  handle_store k v self =
    Done () (set_data_store <[k := v]> self)
      [Print (LogStored (peer_id self) k);
       Sendto (StoreAck (peer_id self) k) (manager_address self)].
Proof. destruct self; simpl; by intros ->. Qed.

(** X7. What a peer stores it finds: after a [store] of a payload under a
    key, a [find_event] for that key is answered to its sender with that
    payload; a second [store] under the same key replaces the payload; and a
    [find_event] for any other key is treated as before the [store]. *)
Theorem store_then_find (self : Peer) (k : string) (v v' : event) (addr : endpoint) :
  lock self = false →
  let stored := state_of (handle_store k v self) in
  let again := state_of (handle_store k v' stored) in
  handle_find_event k (Some addr) stored = Done () stored [Sendto (FoundEvent k v) addr] ∧
  handle_find_event k (Some addr) again = Done () again [Sendto (FoundEvent k v') addr] ∧
  (∀ k', k' ≠ k →
     out_of (handle_find_event k' (Some addr) stored) =
     out_of (handle_find_event k' (Some addr) self)).
Proof.
  intros Hfree stored again. subst again stored.
  rewrite handle_store_run by done. cbn [state_of].
  rewrite handle_store_run by done. cbn [state_of].
  split_and!.
  - apply handle_find_event_found. simpl. apply lookup_insert_eq.
  - apply handle_find_event_found. simpl. apply lookup_insert_eq.
  - intros k' Hne. unfold handle_find_event, mbind, M_bind, reads.
    destruct self as [port id ma rn ds np lk]. cbn.
    rewrite lookup_insert_ne by done. destruct (ds !! k'); [done|]. by destruct np.
Qed.

(** X8. The listener survives every datagram: with the peer's lock free,
    handling any message from any address returns (it neither raises nor
    blocks) and leaves the lock free. The port, the address of the
    coordinator and the identity never change, so a [set_id] that arrives
    later does not rename the peer; only a [store] changes the local store,
    only a [set_next_peer] the successor, only a [teardown] the [running]
    flag. *)
Theorem listen_once_frame (message : message) (addr : endpoint) (self : Peer) :
  lock self = false →
  ∃ self' out,
    listen_once message addr self = Done () self' out ∧
    lock self' = false ∧
    p_port self' = p_port self ∧
    manager_address self' = manager_address self ∧
    peer_id self' = peer_id self ∧
    ((∀ k v, message ≠ Store k v) → data_store self' = data_store self) ∧
    ((∀ np, message ≠ SetNextPeer np) → next_peer self' = next_peer self) ∧
    (message ≠ Teardown → running self' = running self).
Proof.
  intros Hfree. unfold listen_once, try_except.
  destruct message; cbn [handle_message];
    try (eexists _, _; split; [reflexivity|]; by split_and!).
  - (* store *)
    rewrite handle_store_run by done. eexists _, _. split; [reflexivity|].
    split_and!; try done. intros Hne. by destruct (Hne event_id event_data).
  - (* find_event *)
    unfold handle_find_event, mbind, M_bind, reads. simpl.
    destruct (data_store self !! event_id); simpl.
    + eexists _, _. split; [reflexivity|]. by split_and!.
    + destruct (next_peer self) eqn:Hnp; simpl; eexists _, _;
        (split; [reflexivity|]); by split_and!.
  - (* set_next_peer *)
    eexists _, _. split; [reflexivity|]. simpl.
    split_and!; try done. intros Hne. by destruct (Hne next_peer0).
Qed.

(** X9. A peer that has a successor never looks into its own store when its
    operator asks for a key: [query_event] sends the [find_event] to the
    successor, whether the key is stored locally or not. A peer without
    successor that does not store the key sends nothing and returns. *)
Theorem query_event_routes (self : Peer) (k : string) :
  (∀ next, next_peer self = Some next →
     query_event k self =
       Done () self [Print (LogSendingQuery (peer_id self) k next);
                     Sendto (FindEvent k) next]) ∧
  (next_peer self = None → data_store self !! k = None →
     query_event k self =
       Done () self [Print LogCheckingLocally;
                     Print (LogNotFoundNoNext (peer_id self) k)]).
Proof.
  split.
  - intros next Hnext. unfold query_event, mbind, M_bind, reads. simpl.
    by rewrite Hnext.
  - intros Hnext Hk. unfold query_event, mbind, M_bind, reads. simpl.
    rewrite Hnext. simpl. unfold handle_find_event, mbind, M_bind, reads. simpl.
    rewrite Hk. simpl. by rewrite Hnext.
Qed.

(** X10. A peer that leaves: [send_leave] clears the [running] flag; a peer
    that has an identity sends the coordinator one [leave] naming it, and a
    coordinator that handles that datagram with its lock free has the
    identity out of its registry afterwards, with all other records kept. A
    peer without identity sends nothing. *)
Theorem leave_reaches_registry (self : Peer) (coordinator : manager.Manager) :
  manager.lock coordinator = false →
  running (state_of (send_leave self)) = false ∧
  match peer_id self with
  | None => sends (out_of (send_leave self)) = []
  | Some i =>
      sends (out_of (send_leave self)) = [(Leave i, manager_address self)] ∧
      manager.peers (state_of (manager.handle_message (Leave i) (address_of self) coordinator))
        = delete i (manager.peers coordinator)
  end.
Proof.
  intros Hfree. unfold send_leave, mbind, M_bind, reads. simpl.
  destruct (peer_id self) as [i|]; simpl; [|done].
  split_and!; [done|done|].
  destruct (remove_peer_state i coordinator) as (_ & _ & ->). by rewrite Hfree.
Qed.

End peer_operations.

(** * The coordinator and the nodes together *)
Section ring_setup.
Import peer.

(** Among peers bound to different ports, the running peer at an address is
    found by that address. *)
Lemma port_listener (nodes : list Peer) i p :
  NoDup (p_port <$> nodes) → nodes !! i = Some p → running p = true →
  list_find (listening_at (address_of p)) nodes = Some (i, p).
Proof.
  intros Hnd Hi Hrun. apply list_find_Some. split_and!; [done|done|].
  intros j y Hj Hlt [Haddr _]. unfold address_of in Haddr. simplify_eq.
  assert (j = i); [|lia].
  eapply NoDup_lookup; [exact Hnd| |]; rewrite list_lookup_fmap.
  - by rewrite Hj.
  - rewrite Hi. simpl. by f_equal.
Qed.

(** X11. A peer that has handled a [teardown] handles nothing any more: the
    datagram clears its [running] flag, and every datagram addressed to it
    afterwards is dropped without any effect on any peer. *)
Theorem teardown_stops_listener (nodes : list Peer) (i : nat) (p : Peer)
    (src : endpoint) (h : list (endpoint * effect)) :
  NoDup (p_port <$> nodes) →
  nodes !! i = Some p →
  running p = true →
  let stopped := step (mkNetwork nodes [mkDatagram src (address_of p) Teardown] h) in
  peer.nodes stopped = <[i := set_running false p]> nodes ∧
  wire stopped = [] ∧
  ∀ d w h', dst d = address_of p →
    step (mkNetwork (peer.nodes stopped) (d :: w) h') = mkNetwork (peer.nodes stopped) w h'.
Proof.
  intros Hnd Hi Hrun stopped.
  assert (stopped = mkNetwork (<[i := set_running false p]> nodes) []
            (h ++ [(address_of p, Print (LogTeardown (peer_id p)))])) as ->.
  { subst stopped. unfold step. cbn [wire peer.nodes history dst peer.src payload].
    rewrite (port_listener nodes i p) by done.
    unfold run_at. cbn [wire peer.nodes history]. by rewrite Hi. }
  cbn [peer.nodes wire]. split_and!; [done|done|].
  intros d w h' Hd. unfold step. cbn [wire peer.nodes history]. rewrite Hd.
  assert (list_find (listening_at (address_of p)) (<[i := set_running false p]> nodes) = None)
    as ->; [|done].
  apply list_find_None, Forall_forall. intros q Hq [Haddr Hq_run].
  apply list_elem_of_lookup in Hq as [j Hj].
  destruct (decide (j = i)) as [->|Hne].
  - rewrite list_lookup_insert_eq in Hj by by eapply lookup_lt_Some.
    by simplify_eq.
  - rewrite list_lookup_insert_ne in Hj by done.
    unfold address_of in Haddr. simplify_eq. apply Hne.
    eapply NoDup_lookup; [exact Hnd| |]; rewrite list_lookup_fmap.
    + by rewrite Hj.
    + rewrite Hi. simpl. by f_equal.
Qed.

(** X12. When the peer that stores a key is the successor of the peer that
    asks, the lookup works: the question is answered without any forwarding,
    the answer comes back to the peer that asked, and that peer displays the
    stored payload; two deliveries later the wire is empty. A ring of a
    single peer, which is its own successor, is an instance. *)
Theorem successor_answers_requester (nodes : list Peer) (r : nat) (asker holder : Peer)
    (key : string) (v : event) :
  ring_ok nodes = true →
  nodes !! r = Some asker →
  nodes !! ((r + 1) `mod` length nodes) = Some holder →
  data_store holder !! key = Some v →
  let net := steps 2 (query r key (mkNetwork nodes [] [])) in
  peer.nodes net = nodes ∧
  wire net = [] ∧
  forwards (history net) = [] ∧
  answers (history net) = [(address_of holder, key, v, address_of asker)] ∧
  displayed (history net) = [(address_of asker, key, v)].
Proof.
  intros Hok Hr Hh Hv net. subst net.
  rewrite !steps_S. change (steps 0 ?n) with n.
  erewrite query_sends; [|done..]. cbn [app].
  erewrite step_found; [|done..]. cbn [app].
  erewrite step_display; [|done..].
  done.
Qed.

(** *** The successor updates of a rebuild, delivered *)

(** The peers after the first [k] of them have taken a successor each. *)
Lemma updated_ports (f : nat → string * Z) (k : nat) (nodes : list Peer) :
  p_port <$> imap (λ i p, if decide (i < k) then set_next_peer (Some (f i)) p else p) nodes
  = p_port <$> nodes.
Proof.
  apply list_eq. intros i. rewrite !list_lookup_fmap, list_lookup_imap.
  destruct (nodes !! i); simpl; [|done]. by case_decide.
Qed.

Lemma updated_lookup (f : nat → string * Z) (k : nat) (nodes : list Peer) i :
  imap (λ i p, if decide (i < k) then set_next_peer (Some (f i)) p else p) nodes !! i
  = (λ p, if decide (i < k) then set_next_peer (Some (f i)) p else p) <$> nodes !! i.
Proof. by rewrite list_lookup_imap. Qed.

(** One [set_next_peer] datagram per peer, in the order of the peers: after
    [k] deliveries the first [k] peers have their successor and the other
    datagrams are still on the wire. *)
Lemma deliver_updates (nodes : list Peer) (ds : list datagram) (f : nat → string * Z) :
  NoDup (p_port <$> nodes) →
  Forall (λ p, running p = true) nodes →
  length ds = length nodes →
  (∀ i p, nodes !! i = Some p →
     ∃ from, ds !! i = Some (mkDatagram from (address_of p) (SetNextPeer (f i)))) →
  ∀ k, k ≤ length nodes →
    ∃ h,
      steps k (mkNetwork nodes ds []) =
        mkNetwork
          (imap (λ i p, if decide (i < k) then set_next_peer (Some (f i)) p else p) nodes)
          (drop k ds) h.
Proof.
  intros Hnd Hrun Hlen Hds. induction k as [|k IH]; intros Hk.
  { exists []. simpl. f_equal. apply list_eq. intros i.
    rewrite list_lookup_imap. by destruct (nodes !! i). }
  destruct IH as [h Hsteps]; [lia|].
  destruct (lookup_lt_is_Some_2 nodes k) as [p Hp]; [lia|].
  destruct (Hds k p Hp) as [from Hd].
  rewrite steps_S, Hsteps. rewrite (drop_S _ _ _ Hd).
  unfold step. cbn [wire peer.nodes history dst src payload].
  erewrite port_listener; last first.
  - rewrite Forall_forall in Hrun. apply Hrun. by eapply list_elem_of_lookup_2.
  - rewrite updated_lookup, Hp. simpl. by rewrite decide_False by lia.
  - by rewrite updated_ports.
  - unfold run_at. cbn [wire peer.nodes history].
    rewrite updated_lookup, Hp. simpl. rewrite decide_False by lia.
    eexists. f_equal.
    + apply list_eq. intros i. destruct (decide (i = k)) as [->|Hne].
      * rewrite list_lookup_insert_eq by (by rewrite length_imap).
        rewrite updated_lookup, Hp. simpl. by rewrite decide_True by lia.
      * rewrite list_lookup_insert_ne by done. rewrite !updated_lookup.
        destruct (nodes !! i); simpl; [|done].
        destruct (decide (i < k)); [by rewrite decide_True by lia|by rewrite decide_False by lia].
    + simpl. by rewrite app_nil_r.
Qed.

(** The datagrams of a rebuild, for peers whose addresses are the registered
    ones in ascending order of identity. *)
Lemma rebuild_datagrams (self : manager.Manager) (nodes : list Peer) (from : endpoint) :
  manager.lock self = false →
  address_of <$> nodes = (sorted_items (manager.peers self)).*2 →
  length (outgoing from (out_of (manager.update_ring self))) = length nodes ∧
  ∀ i p, nodes !! i = Some p →
    outgoing from (out_of (manager.update_ring self)) !! i =
      Some (mkDatagram from (address_of p)
              (SetNextPeer (default from (address_of <$> nodes !! ((i + 1) `mod` length nodes))))).
Proof.
  intros Hfree Haddr.
  assert (length nodes = length (sorted_items (manager.peers self))) as Hlen.
  { by rewrite <- (length_fmap address_of), Haddr, length_fmap. }
  destruct (decide (sorted_items (manager.peers self) = [])) as [Hnil|Hne].
  { rewrite Hnil in Hlen. destruct nodes; [|done].
    rewrite update_ring_run by done. simpl. rewrite Hnil. simpl. split; [done|]. by intros. }
  unfold outgoing. rewrite update_ring_sends by done. split.
  { rewrite !length_fmap. unfold enumerate. by rewrite length_imap. }
  intros i p Hp.
  assert (∀ j q, nodes !! j = Some q →
            ∃ id, sorted_items (manager.peers self) !! j = Some (id, address_of q)) as Hentry.
  { intros j q Hq.
    assert ((address_of <$> nodes) !! j = Some (address_of q)) as Hj
      by by rewrite list_lookup_fmap, Hq.
    rewrite Haddr, list_lookup_fmap in Hj.
    destruct (sorted_items (manager.peers self) !! j) as [[id a]|]; simplify_eq/=.
    by exists id. }
  destruct (Hentry i p Hp) as [id Hi].
  destruct (ring_successor_exists nodes i) as [q Hq]; [by eapply lookup_lt_Some|].
  destruct (Hentry _ q Hq) as [id' Hi'].
  rewrite !list_lookup_fmap.
  assert (enumerate (sorted_items (manager.peers self)) !! i = Some (i, (id, address_of p)))
    as -> by by apply enumerate_lookup.
  simpl. rewrite <- Hlen, Hi', Hq. done.
Qed.

(** X13. The operator's [setup] builds the ring the lookups need. Take
    running peers bound to different ports whose addresses are the
    registered ones, in ascending order of identity. When the datagrams of
    a rebuild that got the lock have been delivered, one per peer, the wire
    is empty and the peers form a ring: the successor of each is the next
    in that order and the successor of the last is the first. Their stores,
    identities and addresses are as before. *)
Theorem setup_builds_ring (self : manager.Manager) (nodes : list Peer) (from : endpoint) :
  manager.lock self = false →
  address_of <$> nodes = (sorted_items (manager.peers self)).*2 →
  NoDup (p_port <$> nodes) →
  Forall (λ p, running p = true) nodes →
  let updates := outgoing from (out_of (manager.update_ring self)) in
  let net := steps (length nodes) (mkNetwork nodes updates []) in
  wire net = [] ∧
  ring_ok (peer.nodes net) = true ∧
  length (peer.nodes net) = length nodes ∧
  ∀ i p, nodes !! i = Some p →
    ∃ p', peer.nodes net !! i = Some p' ∧
          data_store p' = data_store p ∧ peer_id p' = peer_id p ∧
          address_of p' = address_of p.
Proof.
  intros Hfree Haddr Hnd Hrun updates net.
  destruct (rebuild_datagrams self nodes from Hfree Haddr) as [Hlen Hds].
  fold updates in Hlen, Hds.
  set (f := λ i, default from (address_of <$> nodes !! ((i + 1) `mod` length nodes))).
  destruct (deliver_updates nodes updates f Hnd Hrun Hlen) with (k := length nodes)
    as [h Hsteps]; [|done|].
  { intros i p Hp. exists from. by apply Hds. }
  subst net. rewrite Hsteps. cbn [wire peer.nodes].
  set (nodes' := imap _ nodes).
  assert (∀ i, nodes' !! i = set_next_peer (Some (f i)) <$> nodes !! i) as Hlook.
  { intros i. unfold nodes'. rewrite updated_lookup.
    destruct (nodes !! i) eqn:Hi; simpl; [|done].
    rewrite decide_True; [done|]. by eapply lookup_lt_Some. }
  assert (length nodes' = length nodes) as Hlen' by apply length_imap.
  split_and!.
  - rewrite drop_ge; [done|]. lia.
  - unfold ring_ok. apply andb_true_intro. split.
    + apply bool_decide_eq_true. unfold nodes'. by rewrite updated_ports.
    + apply forallb_forall. intros [i p'] Hin.
      apply list_elem_of_In, elem_of_enumerate in Hin. simpl in Hin.
      rewrite Hlook in Hin. apply fmap_Some in Hin as (p & Hp & ->).
      unfold successor_ok. cbn [fst snd]. apply andb_true_intro. split.
      * simpl. rewrite Forall_forall in Hrun. apply Hrun. by eapply list_elem_of_lookup_2.
      * apply bool_decide_eq_true. simpl. rewrite Hlen', Hlook. unfold f.
        destruct (ring_successor_exists nodes i) as [q Hq]; [by eapply lookup_lt_Some|].
        by rewrite Hq.
  - done.
  - intros i p Hp. exists (set_next_peer (Some (f i)) p). by rewrite Hlook, Hp.
Qed.

End ring_setup.

(** ** The rows of a distribution, delivered *)
Section distribution.
Import peer.
Variable hash : string → Z.
Variable str_of_event : event → string.
Variable str_of_int : Z → string.

Abbreviation key_str := (manager.key_str hash str_of_event str_of_int).
Abbreviation distribute_events := (manager.distribute_events hash str_of_event str_of_int).

(** The store at address [a] takes the payload of a [store] datagram sent to [a]. *)
Abbreviation put a :=
  (λ (m : gmap string (list (string * string))) (d : datagram),
     match payload d with
     | Store k v => if decide (dst d = a) then <[k := v]> m else m
     | _ => m
     end).

Lemma steps_succ_r k net : steps (S k) net = steps k (step net).
Proof. unfold steps. apply Nat.iter_succ_r. Qed.

Lemma set_data_store_same (p : Peer) : set_data_store (λ _, data_store p) p = p.
Proof. by destruct p. Qed.

(** [store] datagrams for running peers bound to different ports: delivered
    in order, each peer's store takes the payloads addressed to it, nothing
    else about the peers changes, and an acknowledgment per datagram is on
    the wire. *)
Lemma deliver_stores (ds : list datagram) :
  ∀ (nodes : list Peer) w h,
    NoDup (p_port <$> nodes) →
    Forall (λ p, running p = true ∧ lock p = false) nodes →
    Forall (λ d, ∃ j p k v, nodes !! j = Some p ∧ dst d = address_of p ∧
                            payload d = Store k v) ds →
    ∃ nodes' acks h',
      steps (length ds) (mkNetwork nodes (ds ++ w) h) = mkNetwork nodes' (w ++ acks) h' ∧
      length acks = length ds ∧
      Forall (λ d, ∃ id k, payload d = StoreAck id k) acks ∧
      Forall2 (λ p p', p' = set_data_store (λ _, foldl (put (address_of p)) (data_store p) ds) p)
              nodes nodes'.
Proof.
  induction ds as [|d ds IH]; intros nodes w h Hnd Hok Hds.
  { exists nodes, [], h. simpl. rewrite app_nil_r. split_and!; [done|done|done|].
    apply Forall2_same_length_lookup. split; [done|].
    intros i x y ??. simplify_eq. by rewrite set_data_store_same. }
  apply Forall_cons in Hds as [(j & p & k & v & Hj & Hdst & Hpay) Hds].
  destruct (Forall_lookup_1 _ _ _ _ Hok Hj) as [Hrun Hfree].
  set (p1 := set_data_store <[k := v]> p).
  set (nodes1 := <[j := p1]> nodes).
  assert (step (mkNetwork nodes ((d :: ds) ++ w) h) =
          mkNetwork nodes1
            (ds ++ (w ++ [mkDatagram (address_of p) (manager_address p) (StoreAck (peer_id p) k)]))
            (h ++ [(address_of p, Print (LogStored (peer_id p) k));
                   (address_of p, Sendto (StoreAck (peer_id p) k) (manager_address p))]))
    as Hstep.
  { unfold step. cbn [wire peer.nodes history app]. rewrite Hdst, Hpay.
    rewrite (port_listener nodes j p) by done.
    unfold run_at. cbn [wire peer.nodes history]. rewrite Hj.
    unfold listen_once, try_except. cbn [handle_message].
    rewrite handle_store_run by done. cbn [state_of out_of].
    by rewrite <- (assoc_L (++)). }
  assert (p_port <$> nodes1 = p_port <$> nodes) as Hports.
  { unfold nodes1. rewrite list_fmap_insert. apply list_insert_id.
    by rewrite list_lookup_fmap, Hj. }
  destruct (IH nodes1 (w ++ [mkDatagram (address_of p) (manager_address p)
                                (StoreAck (peer_id p) k)])
              (h ++ [(address_of p, Print (LogStored (peer_id p) k));
                     (address_of p, Sendto (StoreAck (peer_id p) k) (manager_address p))]))
    as (nodes' & acks & h' & Hsteps & Hlen & Hacks & Hall).
  { by rewrite Hports. }
  { by apply Forall_insert. }
  { eapply Forall_impl; [exact Hds|]. intros d' (j' & p' & k' & v' & Hj' & Hd' & Hp').
    destruct (decide (j' = j)) as [->|Hne].
    - exists j, p1, k', v'. split_and!; [|by simplify_eq|done].
      unfold nodes1. apply list_lookup_insert_eq. by eapply lookup_lt_Some.
    - exists j', p', k', v'. split_and!; [|done|done].
      unfold nodes1. by rewrite list_lookup_insert_ne. }
  exists nodes', (mkDatagram (address_of p) (manager_address p) (StoreAck (peer_id p) k) :: acks), h'.
  split_and!.
  - cbn [length]. rewrite steps_succ_r, Hstep, Hsteps. by rewrite <- (assoc_L (++)).
  - simpl. by rewrite Hlen.
  - constructor; [by eexists _, _|done].
  - apply Forall2_same_length_lookup. apply Forall2_same_length_lookup in Hall as [Hlen' Hall].
    split; [by rewrite <- Hlen'; unfold nodes1; rewrite length_insert|].
    intros i x y Hx Hy. destruct (decide (i = j)) as [->|Hne].
    + assert (x = p) as -> by congruence.
      rewrite (Hall j p1 y); [| |done]; last first.
      { unfold nodes1. apply list_lookup_insert_eq. by eapply lookup_lt_Some. }
      cbn [foldl]. rewrite Hpay, Hdst. rewrite decide_True by done. by destruct p.
    + rewrite (Hall i x y); [|by unfold nodes1; rewrite list_lookup_insert_ne|done].
      cbn [foldl]. rewrite Hpay, Hdst. rewrite decide_False; [done|].
      intros Heq. unfold address_of in Heq. simplify_eq. apply Hne.
      eapply NoDup_lookup; [exact Hnd| |]; rewrite list_lookup_fmap.
      * by rewrite Hx.
      * rewrite Hj. simpl. by f_equal.
Qed.

(** What a store holds under a key after taking a list of datagrams: what it
    held if none of them was for it, the payload of one of them otherwise. *)
Lemma put_lookup (a : string * Z) (k : string) (m : gmap string (list (string * string)))
    (ds : list datagram) :
  (foldl (put a) m ds !! k = m !! k ∧
   ∀ d v, d ∈ ds → dst d = a → payload d ≠ Store k v) ∨
  (∃ d v, d ∈ ds ∧ dst d = a ∧ payload d = Store k v ∧ foldl (put a) m ds !! k = Some v).
Proof.
  induction ds as [|d ds IH] using rev_ind.
  { left. split; [done|]. intros d v Hd. by apply elem_of_nil in Hd. }
  rewrite foldl_app. cbn [foldl].
  assert (∀ m' : gmap string (list (string * string)),
            m' !! k = foldl (put a) m ds !! k →
            (∀ v, dst d = a → payload d ≠ Store k v) →
            (m' !! k = m !! k ∧
             ∀ d0 v, d0 ∈ ds ++ [d] → dst d0 = a → payload d0 ≠ Store k v) ∨
            (∃ d0 v, d0 ∈ ds ++ [d] ∧ dst d0 = a ∧ payload d0 = Store k v ∧
                     m' !! k = Some v)) as Hkeep.
  { intros m' Hm' Hother. destruct IH as [[Hsame Hnone]|(d0 & v0 & Hd0 & Ha & Hp & Hv)].
    - left. split; [congruence|].
      intros d1 v1 [Hd1|Hd1%list_elem_of_singleton]%elem_of_app Hdst.
      + by eapply Hnone.
      + subst d1. by apply Hother.
    - right. exists d0, v0. split_and!; [apply elem_of_app; by left|done|done|congruence]. }
  destruct (payload d) as [| |k' v'| | | | | | | ] eqn:Hpay;
    try (apply Hkeep; [done|by intros]).
  destruct (decide (dst d = a)) as [Hdst|Hdst].
  - destruct (decide (k' = k)) as [->|Hk].
    + right. exists d, v'. split_and!; [apply elem_of_app; right; by left|done|done|].
      apply lookup_insert_eq.
    + apply Hkeep; [by apply lookup_insert_ne|]. intros v _ [= ? _]. done.
  - apply Hkeep; [done|]. by intros.
Qed.

(** The datagrams of a distribution, for peers whose addresses are the
    registered ones in ascending order of identity: the one for a row goes to
    the peer at the position its key hashes to. *)
Lemma distribution_datagrams (self : manager.Manager) (nodes : list Peer) (from : endpoint) :
  manager.lock self = false → manager.peers self ≠ ∅ →
  address_of <$> nodes = (sorted_items (manager.peers self)).*2 →
  Forall2 (λ ev d, ∃ p,
             nodes !! Z.to_nat (hash (key_str ev) `mod` Z.of_nat (length nodes)) = Some p ∧
             d = mkDatagram from (address_of p) (Store (key_str ev) ev))
          (manager.events self) (outgoing from (out_of (distribute_events self))).
Proof.
  intros Hfree Hne Haddr.
  assert (length nodes = length (sorted_items (manager.peers self))) as Hlen.
  { by rewrite <- (length_fmap address_of), Haddr, length_fmap. }
  unfold outgoing. apply Forall2_fmap_r.
  eapply Forall2_impl; [by apply distribute_events_sends|].
  intros ev s (id & a & Hl & ->). rewrite <- Hlen in Hl.
  assert ((address_of <$> nodes) !!
            Z.to_nat (hash (key_str ev) `mod` Z.of_nat (length nodes)) = Some a) as Hp.
  { by rewrite Haddr, list_lookup_fmap, Hl. }
  rewrite list_lookup_fmap in Hp. apply fmap_Some in Hp as (p & Hp & ->).
  by exists p.
Qed.

(** X14. A distribution lands as a partition. Take running peers with free
    locks, bound to different ports, whose addresses are the registered ones
    in ascending order of identity, and deliver the [store] datagrams of a
    distribution that got the lock, one delivery per loaded row. Then every
    row's key is in the store of the peer at the position the key hashes to,
    bound to a loaded row with that key; no other peer's store has changed
    under that key; under a key of no loaded row no store has changed; and
    one acknowledgment per row is on its way to the coordinator. *)
Theorem distribution_partitions (self : manager.Manager) (nodes : list Peer) (from : endpoint) :
  manager.lock self = false →
  manager.peers self ≠ ∅ →
  address_of <$> nodes = (sorted_items (manager.peers self)).*2 →
  NoDup (p_port <$> nodes) →
  Forall (λ p, running p = true ∧ lock p = false) nodes →
  let owner := λ k, Z.to_nat (hash k `mod` Z.of_nat (length nodes)) in
  let net := steps (length (manager.events self))
               (mkNetwork nodes (outgoing from (out_of (distribute_events self))) []) in
  length (peer.nodes net) = length nodes ∧
  length (wire net) = length (manager.events self) ∧
  Forall (λ d, ∃ id k, payload d = StoreAck id k) (wire net) ∧
  (∀ ev, ev ∈ manager.events self →
     ∃ p' ev', peer.nodes net !! owner (key_str ev) = Some p' ∧
               data_store p' !! key_str ev = Some ev' ∧
               ev' ∈ manager.events self ∧ key_str ev' = key_str ev) ∧
  (∀ j p p' k, nodes !! j = Some p → peer.nodes net !! j = Some p' →
     j ≠ owner k ∨ (∀ ev, ev ∈ manager.events self → key_str ev ≠ k) →
     data_store p' !! k = data_store p !! k).
Proof.
  intros Hfree Hne Haddr Hnd Hok owner net.
  pose proof (distribution_datagrams self nodes from Hfree Hne Haddr) as Hds.
  set (ds := outgoing from (out_of (distribute_events self))) in *.
  assert (length ds = length (manager.events self)) as Hlen
    by (symmetry; by eapply Forall2_length).
  assert (∀ d, d ∈ ds → ∃ ev p, ev ∈ manager.events self ∧
            nodes !! owner (key_str ev) = Some p ∧
            d = mkDatagram from (address_of p) (Store (key_str ev) ev)) as Hfrom.
  { intros d [i Hi]%list_elem_of_lookup.
    destruct (Forall2_lookup_r _ _ _ _ _ Hds Hi) as (ev & Hev & p & Hp & ->).
    exists ev, p. split; [by eapply list_elem_of_lookup_2|done]. }
  destruct (deliver_stores ds nodes [] []) as (nodes' & acks & h' & Hsteps & Hacks & Hack & Hall);
    [done|done|..].
  { apply Forall_forall. intros d (ev & p & _ & Hp & ->)%Hfrom.
    by exists (owner (key_str ev)), p, (key_str ev), ev. }
  rewrite app_nil_r, Hlen in Hsteps. subst net. rewrite Hsteps. cbn [peer.nodes wire app].
  apply Forall2_same_length_lookup in Hall as [Hlen' Hall].
  assert (∀ j p d, nodes !! j = Some p → d ∈ ds → dst d = address_of p →
            ∃ ev, ev ∈ manager.events self ∧ j = owner (key_str ev) ∧
                  payload d = Store (key_str ev) ev) as Hmine.
  { intros j p d Hj (ev & p0 & Hev & Hp0 & ->)%Hfrom Hdst. simpl in Hdst.
    exists ev. split_and!; [done| |done].
    unfold address_of in Hdst. simplify_eq.
    eapply NoDup_lookup; [exact Hnd| |]; rewrite list_lookup_fmap.
    - by rewrite Hj.
    - rewrite Hp0. simpl. by f_equal. }
  split_and!; [done|lia|done| |].
  - intros ev [i Hi]%list_elem_of_lookup.
    destruct (Forall2_lookup_l _ _ _ _ _ Hds Hi) as (d & Hd & p & Hp & ->).
    destruct (lookup_lt_is_Some_2 nodes' (owner (key_str ev))) as [p' Hp'].
    { rewrite <- Hlen'. by eapply lookup_lt_Some. }
    pose proof (Hall _ _ _ Hp Hp') as Heq.
    destruct (put_lookup (address_of p) (key_str ev) (data_store p) ds)
      as [[_ Hnone]|(d & v & Hin & Hdst & Hpay & Hv)].
    + destruct (Hnone _ ev (list_elem_of_lookup_2 _ _ _ Hd) eq_refl eq_refl).
    + destruct (Hmine _ _ _ Hp Hin Hdst) as (ev' & Hev' & _ & Hpay').
      rewrite Hpay in Hpay'. injection Hpay' as Hk ->.
      exists p', ev'. split_and!; [done| |done|done].
      by rewrite Heq.
  - intros j p p' k Hj Hj' Hnot. rewrite (Hall _ _ _ Hj Hj'). cbn [data_store set_data_store].
    destruct (put_lookup (address_of p) k (data_store p) ds)
      as [[Hsame _]|(d & v & Hin & Hdst & Hpay & _)]; [done|].
    destruct (Hmine _ _ _ Hj Hin Hdst) as (ev' & Hev' & Hown & Hpay').
    rewrite Hpay in Hpay'. injection Hpay' as Hk ->.
    destruct Hnot as [Hnot|Hnot].
    + destruct Hnot. by rewrite Hk.
    + by destruct (Hnot _ Hev').
Qed.

End distribution.

(** ** The further properties on the concrete registries and rings *)

Lemma teardown_reaches_every_peer_witness :
  manager.lock examples.manager3 = false ∧
  ∃ out,
    manager.teardown examples.manager3 =
      Done () (manager.set_running false examples.manager3) out ∧
    length (sends out) = 3.
Proof.
  split; [reflexivity|].
  destruct (teardown_reaches_every_peer examples.manager3 eq_refl) as (out & Hrun & _ & Hlen & _).
  exists out. split; [exact Hrun|exact Hlen].
Defined.

Lemma registry3_has_1 : is_Some (manager.peers examples.manager3 !! 1%Z).
Proof. exists examples.B. reflexivity. Qed.

Lemma removal_blocks_coordinator_witness :
  manager.lock examples.manager3 = false ∧
  is_Some (manager.peers examples.manager3 !! 1%Z) ∧
  manager.update_ring
    (set_lock true (manager.set_peers (delete 1%Z) examples.manager3)) =
  Blocked (set_lock true (manager.set_peers (delete 1%Z) examples.manager3)) [].
Proof.
  split; [reflexivity|]. split; [exact registry3_has_1|].
  exact (proj1 (proj2 (proj2 (removal_blocks_coordinator examples.hash0
    examples.str_of_event0 examples.str_of_int0 examples.manager3 1 eq_refl registry3_has_1)))).
Defined.

Lemma single_peer_gets_every_row_witness :
  manager.lock examples.manager1 = false ∧
  manager.peers examples.manager1 = {[ 0%Z := examples.A ]} ∧
  length (sends (out_of (manager.distribute_events examples.hash0 examples.str_of_event0
    examples.str_of_int0 examples.manager1))) = 2.
Proof.
  split; [reflexivity|]. split; [reflexivity|].
  rewrite (single_peer_gets_every_row examples.hash0 examples.str_of_event0
    examples.str_of_int0 examples.manager1 0 examples.A eq_refl eq_refl).
  reflexivity.
Defined.

Lemma register_never_overwrites_witness :
  manager.lock (state_of (manager.run [(Register 9000, examples.A); (Register 9001, examples.B)]
    (manager.init []))) = false ∧
  size (manager.peers (state_of (manager.register_peer 9002 examples.C
    (state_of (manager.run [(Register 9000, examples.A); (Register 9001, examples.B)]
      (manager.init [])))))) =
  S (size (manager.peers (state_of (manager.run
    [(Register 9000, examples.A); (Register 9001, examples.B)] (manager.init []))))).
Proof.
  split; [reflexivity|].
  exact (proj1 (proj2 (proj2 (register_never_overwrites []
    [(Register 9000, examples.A); (Register 9001, examples.B)] 9002 examples.C eq_refl)))).
Defined.

Lemma store_then_find_witness :
  peer.lock examples.lonely = false ∧
  peer.handle_find_event "EVT2" (Some examples.B)
    (state_of (peer.handle_store "EVT2" examples.evt2 examples.lonely)) =
  Done () (state_of (peer.handle_store "EVT2" examples.evt2 examples.lonely))
    [Sendto (FoundEvent "EVT2" examples.evt2) examples.B].
Proof.
  split; [reflexivity|].
  exact (proj1 (store_then_find examples.lonely "EVT2" examples.evt2 examples.evt1
    examples.B eq_refl)).
Defined.

Lemma listen_once_frame_witness :
  peer.lock examples.lonely = false ∧
  ∃ self' out,
    peer.listen_once (SetId 5) examples.A examples.lonely = Done () self' out ∧
    peer.peer_id self' = peer.peer_id examples.lonely.
Proof.
  split; [reflexivity|].
  destruct (listen_once_frame (SetId 5) examples.A examples.lonely eq_refl)
    as (self' & out & Hrun & _ & _ & _ & Hid & _).
  exists self', out. split; [exact Hrun|exact Hid].
Defined.

Lemma leave_reaches_registry_witness :
  manager.lock examples.manager3 = false ∧
  peer.running (state_of (peer.send_leave examples.lonely)) = false.
Proof.
  split; [reflexivity|].
  exact (proj1 (leave_reaches_registry examples.lonely examples.manager3 eq_refl)).
Defined.

Lemma coordinator_blocks_only_on_leave_witness :
  manager.lock examples.manager3 = false ∧
  ∃ s' out,
    manager.console_command examples.hash0 examples.str_of_event0 examples.str_of_int0
      "setup" examples.manager3 = Done () s' out ∧
    manager.lock s' = false.
Proof.
  split; [reflexivity|].
  destruct (proj1 (coordinator_blocks_only_on_leave examples.hash0 examples.str_of_event0
    examples.str_of_int0 examples.manager3 eq_refl) "setup"%string)
    as (s' & out & Hrun & Hfree & _).
  exists s', out. split; [exact Hrun|exact Hfree].
Defined.

Lemma fresh_nodes_ports : NoDup (peer.p_port <$> examples.fresh_nodes).
Proof. apply (bool_decide_unpack _). reflexivity. Qed.

Lemma fresh_nodes_running : Forall (λ p, peer.running p = true) examples.fresh_nodes.
Proof. repeat constructor. Qed.

Lemma fresh_nodes_ready :
  Forall (λ p, peer.running p = true ∧ peer.lock p = false) examples.fresh_nodes.
Proof. repeat constructor. Qed.

Lemma manager_local_non_empty : manager.peers examples.manager_local ≠ ∅.
Proof.
  intros Heq. apply (f_equal (λ m : gmap Z (string * Z), m !! 0%Z)) in Heq.
  vm_compute in Heq. discriminate Heq.
Qed.

Lemma teardown_stops_listener_witness :
  NoDup (peer.p_port <$> examples.fresh_nodes) ∧
  examples.fresh_nodes !! 1 = Some (peer.init 9001) ∧
  peer.running (peer.init 9001) = true ∧
  peer.wire (peer.step (peer.mkNetwork examples.fresh_nodes
    [peer.mkDatagram examples.A (peer.address_of (peer.init 9001)) Teardown] [])) = [].
Proof.
  split; [exact fresh_nodes_ports|]. split; [reflexivity|]. split; [reflexivity|].
  exact (proj1 (proj2 (teardown_stops_listener examples.fresh_nodes 1 (peer.init 9001)
    examples.A [] fresh_nodes_ports eq_refl eq_refl))).
Defined.

Lemma successor_answers_requester_witness :
  peer.ring_ok examples.ring3 = true ∧
  peer.displayed (peer.history (peer.steps 2 (peer.query 1 "EVT1" examples.net3))) =
    [(("127.0.0.1", 9001%Z), "EVT1", examples.evt1)]%string.
Proof.
  split; [vm_compute; reflexivity|].
  exact (proj2 (proj2 (proj2 (proj2 (successor_answers_requester examples.ring3 1
    (examples.node 1 9001 9002 ∅)
    (examples.node 2 9002 9000 {[ "EVT1"%string := examples.evt1 ]})
    "EVT1" examples.evt1 eq_refl eq_refl eq_refl eq_refl))))).
Defined.

Lemma setup_builds_ring_witness :
  manager.lock examples.manager_local = false ∧
  peer.address_of <$> examples.fresh_nodes =
    (sorted_items (manager.peers examples.manager_local)).*2 ∧
  peer.ring_ok (peer.nodes (peer.steps 3 (peer.mkNetwork examples.fresh_nodes
    (peer.outgoing examples.A (out_of (manager.update_ring examples.manager_local))) []))) =
  true.
Proof.
  split; [reflexivity|]. split; [vm_compute; reflexivity|].
  exact (proj1 (proj2 (setup_builds_ring examples.manager_local examples.fresh_nodes
    examples.A eq_refl eq_refl fresh_nodes_ports fresh_nodes_running))).
Defined.

Lemma distribution_partitions_witness :
  manager.lock examples.manager_local = false ∧
  manager.peers examples.manager_local ≠ ∅ ∧
  length (peer.wire (peer.steps 2 (peer.mkNetwork examples.fresh_nodes
    (peer.outgoing examples.A (out_of (manager.distribute_events examples.hash0
       examples.str_of_event0 examples.str_of_int0 examples.manager_local))) []))) = 2.
Proof.
  split; [reflexivity|]. split; [exact manager_local_non_empty|].
  exact (proj1 (proj2 (distribution_partitions examples.hash0 examples.str_of_event0
    examples.str_of_int0 examples.manager_local examples.fresh_nodes examples.A
    eq_refl manager_local_non_empty eq_refl fresh_nodes_ports fresh_nodes_ready))).
Defined.

Lemma handle_message_replies_witness :
  manager.handle_message (StoreAck (Some 1%Z) "EVT1") examples.B examples.manager3 =
  Done () examples.manager3
    (out_of (manager.handle_message (StoreAck (Some 1%Z) "EVT1") examples.B examples.manager3)).
Proof.
  apply (proj2 (handle_message_replies (StoreAck (Some 1%Z) "EVT1") examples.B
    examples.manager3)); discriminate.
Defined.

Lemma registrations_recorded_witness :
  size (manager.peers (state_of (manager.run
    ((λ pa : Z * (string * Z), (Register pa.1, pa.2)) <$>
       [(9000%Z, examples.A); (9001%Z, examples.B)])
    (manager.init [])))) = 2.
Proof.
  exact (proj1 (proj2 (proj2 (registrations_recorded []
    [(9000%Z, examples.A); (9001%Z, examples.B)])))).
Defined.

Lemma query_event_routes_witness :
  peer.next_peer examples.lonely = None ∧
  peer.data_store examples.lonely !! "EVT7"%string = None ∧
  peer.query_event "EVT7" examples.lonely =
    Done () examples.lonely
      [Print LogCheckingLocally; Print (LogNotFoundNoNext (peer.peer_id examples.lonely) "EVT7")].
Proof.
  split; [reflexivity|]. split; [reflexivity|].
  exact (proj2 (query_event_routes examples.lonely "EVT7") eq_refl eq_refl).
Defined.
